(** * ledger-api-countervalue: the CoinAPI streaming client and its supervisor

    A shallow embedding of [src/providers/coinapi.js] (the wire-symbol codec
    and the websocket subscription) and of the synchronisation script with its
    [pullLoop], followed by the properties of the specification that concern
    them. *)

From Stdlib Require Import Ascii String ZArith QArith Lia Permutation.
From stdpp Require Import base tactics option strings numbers list.

Local Open Scope Z_scope.
Set Warnings "-register-all".

(** ** Environment

    [allTickers] is imported by the provider from [../utils], which is not
    among the sources; it is the table of supported assets and is taken as a
    parameter of the whole development.  [COINAPI_KEY] is read from the
    process environment. *)
Class Env := {
  allTickers : list string;
  COINAPI_KEY : option string
}.

(** ** JavaScript strings: [String.prototype.split] on a one-character
    separator *)
Module Str.

Definition sep : ascii := "_"%char.

(** [s.split(c)]: the maximal pieces of [s] between occurrences of [c]; an
    empty string gives one empty piece. *)
Fixpoint split (c : ascii) (s : string) : list string :=
  match s with
  | EmptyString => [EmptyString]
  | String a rest =>
      if Ascii.eqb a c then EmptyString :: split c rest
      else match split c rest with
           | [] => [String a EmptyString]
           | piece :: pieces => String a piece :: pieces
           end
  end.

(** [s.includes(c)] *)
Fixpoint includes (c : ascii) (s : string) : bool :=
  match s with
  | EmptyString => false
  | String a rest => Ascii.eqb a c || includes c rest
  end.

End Str.

(** ** [../utils] and [../types] *)
Module Utils.

(** Modelled from the spec: [../types] is missing.  Section 3 gives the
    pair-exchange identifier as the immutable triple of exchange, from-asset
    and to-asset, with structural equality. *)
Record PairExchangeId := mkId {
  id_exchange : string;
  id_from : string;
  id_to : string
}.

(** The [PairExchange] object as the provider reads it: [.id], [.from],
    [.to] and [.exchange]. *)
Record PairExchange := mkPairExchange {
  pe_id : PairExchangeId;
  pe_from : string;
  pe_to : string;
  pe_exchange : string
}.

Section WithEnv.
Context `{Env}.

(** Modelled from the spec: [supportTicker] of [../utils] is missing; it
    is membership in the supported asset set. *)
Definition supportTicker (ticker : string) : bool :=
  bool_decide (ticker ∈ allTickers).

(** Modelled from the spec: [pairExchange] of [../utils] is missing.
    Section 4.1 has the decoder return none when either asset is outside
    the supported asset set, and the decoder in the sources adds no test
    of its own, so the test is placed here.  An argument that is
    [undefined] ([None]) is no supported asset. *)
Definition pairExchange (exchange : string) (from to : option string)
  : option PairExchange :=
  match from, to with
  | Some f, Some t =>
      if supportTicker f && supportTicker t
      then Some {| pe_id := mkId exchange f t;
                   pe_from := f; pe_to := t; pe_exchange := exchange |}
      else None
  | _, _ => None
  end.

End WithEnv.

(** What a call gives that can throw an encoding error. *)
Inductive attempt (A : Type) :=
| Ok (a : A)
| EncodingError.
Arguments Ok {A} a.
Arguments EncodingError {A}.

(** Some field of the identifier holds the separator of the wire format. *)
Definition has_separator (i : PairExchangeId) : bool :=
  Str.includes Str.sep (id_exchange i)
  || Str.includes Str.sep (id_from i)
  || Str.includes Str.sep (id_to i).

(** Modelled from the spec: [pairExchangeFromId] of [../utils] is missing.
    Section 4.1 has the encoder fail with an encoding error if any field of
    the identifier contains the field separator of the wire format, and the
    encoder in the sources has no test and no [throw] of its own, so the
    failure is placed here.  For any other identifier it gives the object of
    the identifier, whose fields are those of the triple. *)
Definition pairExchangeFromId (pairExchangeId : PairExchangeId)
  : attempt PairExchange :=
  if has_separator pairExchangeId then EncodingError
  else Ok {| pe_id := pairExchangeId;
             pe_from := id_from pairExchangeId;
             pe_to := id_to pairExchangeId;
             pe_exchange := id_exchange pairExchangeId |}.

End Utils.

(** ** [src/providers/coinapi.js]: the codec *)
Module Codec.
Import Utils.

Section WithEnv.
Context `{Env}.

(** [const [exchange, type, from, to] = symbol.split("_")]: with fewer
    than two pieces [type] is [undefined], which is not ["SPOT"]; [from]
    and [to] are [undefined] when their piece is absent, and pieces after
    the fourth are ignored. *)
Definition symbolToPairExchange (symbol : string) : option PairExchange :=
  match Str.split Str.sep symbol with
  | exchange :: type :: rest =>
      if String.eqb type "SPOT"
      then pairExchange exchange (rest !! 0%nat) (rest !! 1%nat)
      else None
  | _ => None
  end.

End WithEnv.

(** [`${exchange}_SPOT_${from}_${to}`], of the object that
    [pairExchangeFromId] returns; what [pairExchangeFromId] throws is not
    caught. *)
Definition pairExchangeIdToSymbol (pairExchangeId : PairExchangeId)
  : attempt string :=
  match pairExchangeFromId pairExchangeId with
  | Ok pe => Ok (pe_exchange pe +:+ "_SPOT_" +:+ pe_from pe +:+ "_" +:+ pe_to pe)
  | EncodingError => EncodingError
  end.

(** The instrument-type piece of a wire symbol, [None] when there is
    none. *)
Definition instrumentType (symbol : string) : option string :=
  Str.split Str.sep symbol !! 1%nat.

(** The two assets a wire symbol names, where it has them. *)
Definition assets (symbol : string) : list string :=
  take 2 (drop 2 (Str.split Str.sep symbol)).

(** An identifier is valid when no field holds the separator and both
    assets are supported. *)
Definition valid_id `{Env} (i : PairExchangeId) : bool :=
  negb (has_separator i) && supportTicker (id_from i) && supportTicker (id_to i).

End Codec.

(** ** Values of the host language *)
Module Js.

(** What [JSON.parse] can return. *)
Inductive json :=
| JNull
| JBool (b : bool)
| JNum (n : Q)
| JStr (s : string)
| JArr (items : list json)
| JObj (fields : list (string * json)).

(** A value read from a parsed frame: [None] is [undefined]. *)
Definition value := option json.

Fixpoint assoc (key : string) (fields : list (string * json)) : value :=
  match fields with
  | [] => None
  | (k, v) :: rest => if String.eqb k key then Some v else assoc key rest
  end.

(** [r.key] on a parsed value that passed the object test; [fields] holds
    the own properties of the object, one per key.  An array has none of
    the names the provider reads. *)
Definition get (r : json) (key : string) : value :=
  match r with
  | JObj fields => assoc key fields
  | _ => None
  end.

(** [r && typeof r === "object"] *)
Definition is_object (r : json) : bool :=
  match r with
  | JObj _ | JArr _ => true
  | _ => false
  end.

(** [v === s] for a string literal [s] *)
Definition is_string (s : string) (v : value) : bool :=
  match v with
  | Some (JStr s') => String.eqb s' s
  | _ => false
  end.

(** The text of a websocket message is used only through [JSON.parse], so a
    message is represented by what [JSON.parse(data)] does on it: it throws
    a [SyntaxError] or returns a value. *)
Inductive data :=
| Malformed
| Parses (r : json).

Inductive exn :=
| SyntaxError        (* JSON.parse *)
| TypeError          (* a method call on something that has none *)
| UnhandledError.    (* an "error" event on an emitter without listener *)

(** How the call of a callback ends. *)
Inductive completion (A : Type) :=
| Return (a : A)
| Throw (e : exn).
Arguments Return {A} a.
Arguments Throw {A} e.

End Js.

(** ** The observer side of rxjs

    [Observable.create(f)] runs [f] with the subscriber [o] of each
    subscription and registers the returned [{ unsubscribe }] as its teardown.
    The subscriber forwards [next], [error] and [complete] to the consumer
    only while it is not stopped; [error] and [complete] stop it and then
    unsubscribe, and [unsubscribe] on a closed subscription returns at
    once. *)
Module Rx.

Inductive notification (A E : Type) :=
| Next (v : A)
| Error (reason : E)
| Complete.
Arguments Next {A E} v.
Arguments Error {A E} reason.
Arguments Complete {A E}.

Definition terminal {A E} (n : notification A E) : bool :=
  match n with
  | Next _ => false
  | _ => true
  end.

End Rx.

(** ** [src/providers/coinapi.js]: the subscription *)
Module Provider.
Import Utils Js Rx.

(** The object handed to [o.next]. *)
Record PriceUpdate := mkPriceUpdate {
  pairExchangeId : PairExchangeId;
  price : value
}.

Definition signal : Type := notification PriceUpdate value.

(** The argument of [JSON.stringify] in the [open] listener. *)
Record Hello := mkHello {
  hello_type : string;
  apikey : option string;
  heartbeat : bool;
  subscribe_data_type : list string;
  subscribe_filter_asset_id : list string
}.

(** What a listener does to the socket. *)
Inductive wsop :=
| Send (h : Hello)
| Close.

(** The calls a listener makes, in order, on the subscriber [o] and on the
    socket [ws]. *)
Inductive call :=
| O (n : signal)
| Ws (op : wsop).

(** The events of the socket.  ["close"] carries the close code, which the
    listener does not read: 1000 is a normal closure, 1006 a connection
    lost without a closing handshake. *)
Inductive wsevent :=
| Open
| Message (d : data)
| Closed (code : Z)
| Failed.

Section WithEnv.
Context `{Env}.

Definition hello : Hello :=
  {| hello_type := "hello";
     apikey := COINAPI_KEY;
     heartbeat := false;
     subscribe_data_type := ["trade"%string];
     subscribe_filter_asset_id := allTickers |}.

(** The body of the ["message"] listener after [JSON.parse].  The decoder
    is called on [r.symbol_id]; [.split] exists on strings only. *)
Definition onParsed (r : json) : completion (list call) :=
  if is_object r then
    if is_string "error" (get r "type")
    then Return [O (Error (get r "message")); Ws Close]
    else
      match get r "symbol_id" with
      | Some (JStr symbol) =>
          match Codec.symbolToPairExchange symbol with
          | Some maybePairExchange =>
              Return [O (Next {| pairExchangeId := pe_id maybePairExchange;
                                 price := get r "price" |})]
          | None => Return []
          end
      | _ => Throw TypeError
      end
  else Return [].

Definition onMessage (d : data) : completion (list call) :=
  match d with
  | Malformed => Throw SyntaxError
  | Parses r => onParsed r
  end.

(** The listeners registered on the socket: ["open"], ["message"] and
    ["close"].  None is registered for ["error"], and an emitter throws
    an ["error"] event that nobody listens to. *)
Definition listener (e : wsevent) : completion (list call) :=
  match e with
  | Open => Return [Ws (Send hello)]
  | Message d => onMessage d
  | Closed _ => Return [O Complete]
  | Failed => Throw UnhandledError
  end.

End WithEnv.

(** [function unsubscribe() { ws.close(); }], which is returned to rxjs as
    the teardown of the subscription. *)
Definition unsubscribe : list wsop := [Close].

(** One subscription: whether its subscriber is stopped, what it has
    delivered to the consumer and what it has done to the socket. *)
Record Subscription := mkSubscription {
  closed : bool;
  delivered : list signal;
  wire : list wsop
}.

Definition fresh : Subscription :=
  {| closed := false; delivered := []; wire := [] |}.

(** The method [unsubscribe()] of the subscription that rxjs hands to the
    consumer: on a closed one it returns at once, otherwise it stops the
    subscriber and runs the teardown. *)
Definition sub_unsubscribe (sub : Subscription) : Subscription :=
  if closed sub then sub
  else {| closed := true; delivered := delivered sub;
          wire := wire sub ++ unsubscribe |}.

(** One call of a listener, through the subscriber. *)
Definition perform (c : call) (sub : Subscription) : Subscription :=
  match c with
  | Ws op => {| closed := closed sub; delivered := delivered sub;
                wire := wire sub ++ [op] |}
  | O n =>
      if closed sub then sub
      else if terminal n
      then sub_unsubscribe {| closed := false; delivered := delivered sub ++ [n];
                          wire := wire sub |}
      else {| closed := false; delivered := delivered sub ++ [n];
              wire := wire sub |}
  end.

Definition perform_all (cs : list call) (sub : Subscription) : Subscription :=
  foldl (fun s c => perform c s) sub cs.

(** An event of the socket reaching the subscription. *)
Definition on `{Env} (e : wsevent) (sub : Subscription) : completion Subscription :=
  match listener e with
  | Return cs => Return (perform_all cs sub)
  | Throw x => Throw x
  end.

(** A run of socket events; an exception that leaves a listener ends it. *)
Fixpoint run `{Env} (es : list wsevent) (sub : Subscription) : completion Subscription :=
  match es with
  | [] => Return sub
  | e :: rest =>
      match on e sub with
      | Return sub' => run rest sub'
      | Throw x => Throw x
      end
  end.

(** A frame the provider tags as an error. *)
Definition error_frame (r : json) : bool :=
  is_object r && is_string "error" (get r "type").

(** The frame types of the feed that the specification names. *)
Definition recognized (r : json) : bool :=
  is_string "trade" (get r "type") || is_string "error" (get r "type").

(** A failure of the transport as the socket reports it: an ["error"]
    event, or a ["close"] event with the code of a connection lost without
    a closing handshake. *)
Definition transport_failure (e : wsevent) : bool :=
  match e with
  | Failed => true
  | Closed code => code =? 1006
  | _ => false
  end.

(** The signals a step added. *)
Definition news (before after : Subscription) : list signal :=
  drop (length (delivered before)) (delivered after).

End Provider.

(** ** The synchronisation script: [pullLoop] and its timers

    The script is run by the event loop of the host: a callback given to
    [setTimeout] runs when its time has come, a listener of a socket when the
    socket has an event.  The state below is what the script itself holds,
    the pending timers and the subscriptions, together with a record, kept
    for the statements, of why each restart was issued and of when and how
    each subscription ended; no callback reads that record.  The prefetch job
    of the last lines shares nothing with the loop and is left out. *)
Module Sync.
Import Js Rx Provider.

Definition rebootTimeIfError : Z := 60 * 1000.
Definition rebootTimeIfComplete : Z := 30 * 1000.
Definition autoRebootHangTime : Z := 10 * 1000.
Definition autoRebootInterval : Z := 4 * 60 * 60 * 1000.

(** Why a [setTimeout(pullLoop, _)] was issued: by the error callback, by
    the completion callback, or by the rotation timer. *)
Inductive Cause := ByError | ByComplete | ByRotation.

#[global] Instance Cause_eq_dec : EqDecision Cause.
Proof. solve_decision. Defined.

Definition delay (c : Cause) : Z :=
  match c with
  | ByError => rebootTimeIfError
  | ByComplete => rebootTimeIfComplete
  | ByRotation => autoRebootHangTime
  end.

(** A restart is labelled, for the statements only, with the handle and the
    cause it was issued for. *)
Definition Origin : Type := nat * Cause.

(** The two callbacks given to [setTimeout]: [pullLoop] itself, and the
    closure of lines 27 to 30, which holds the [sub] of its own call of
    [pullLoop]. *)
Inductive Task :=
| PullLoop (origin : Origin)
| Rotate (sub : nat).

#[global] Instance Task_eq_dec : EqDecision Task.
Proof. solve_decision. Defined.

(** One call of [pullLiveRates]: when it was made and by which restart
    ([None] for the first call), the subscription it returned, and when and
    how that subscription came to its end ([None] while it is live). *)
Record Handle := mkHandle {
  opened_at : Z;
  opened_by : option Origin;
  sub : Subscription;
  ended : option (Z * Cause)
}.

(** The process: the clock in milliseconds, the pending timers with the
    time they are due, the handles in the order of their creation, and the
    record of every [setTimeout(pullLoop, _)] with its due time. *)
Record State := mkState {
  now : Z;
  timers : list (Z * Task);
  handles : list Handle;
  restarts : list (Z * Origin)
}.

Definition live (h : Handle) : bool := negb (closed (sub h)).

Definition setTimeout (task : Task) (ms : Z) (s : State) : State :=
  {| now := now s;
     timers := timers s ++ [(now s + ms, task)];
     handles := handles s;
     restarts := restarts s |}.

(** [setTimeout(pullLoop, delay)] issued for handle [k]. *)
Definition restart (k : nat) (c : Cause) (s : State) : State :=
  let s' := setTimeout (PullLoop (k, c)) (delay c) s in
  {| now := now s';
     timers := timers s';
     handles := handles s';
     restarts := restarts s ++ [(now s + delay c, (k, c))] |}.

Definition set_handle (k : nat) (h : Handle) (s : State) : State :=
  {| now := now s;
     timers := timers s;
     handles := <[k := h]> (handles s);
     restarts := restarts s |}.

(** Modelled from the spec: [pullLiveRates] of [./cache] is missing.  It
    subscribes to the provider's [subscribePriceUpdate()], writes each tick
    to the store, passes the error and the completion signal to its two
    arguments, and returns the subscription (sections 4.2 and 6). *)
Definition pullLiveRates : Subscription := fresh.

(** [pullLoop]: the handle of the new subscription is the next index, and
    its rotation timer is armed. *)
Definition pullLoop (origin : option Origin) (s : State) : State :=
  let k := length (handles s) in
  let opened :=
    {| now := now s;
       timers := timers s;
       handles := handles s ++ [ {| opened_at := now s; opened_by := origin;
                                     sub := pullLiveRates; ended := None |} ];
       restarts := restarts s |} in
  setTimeout (Rotate k) autoRebootInterval opened.

(** For the statements only: the end of handle [k], noted once. *)
Definition finish (k : nat) (c : Cause) (s : State) : State :=
  match handles s !! k with
  | Some h =>
      set_handle k {| opened_at := opened_at h; opened_by := opened_by h;
                      sub := sub h;
                      ended := match ended h with
                               | Some x => Some x
                               | None => Some (now s, c)
                               end |} s
  | None => s
  end.

(** The two callbacks [pullLoop] gives to [pullLiveRates], and the tick
    sink of [pullLiveRates], for a signal of handle [k]. *)
Definition callback (k : nat) (s : State) (n : signal) : State :=
  match n with
  | Next _ => s
  | Error _ => restart k ByError (finish k ByError s)
  | Complete => restart k ByComplete (finish k ByComplete s)
  end.

(** The cause a signal gives to the restart it makes. *)
Definition cause_of (n : signal) : option Cause :=
  match n with
  | Next _ => None
  | Error _ => Some ByError
  | Complete => Some ByComplete
  end.

(** [sub.unsubscribe()] on handle [k]. *)
Definition cancel (k : nat) (s : State) : State :=
  match handles s !! k with
  | Some h =>
      set_handle k {| opened_at := opened_at h; opened_by := opened_by h;
                      sub := sub_unsubscribe (sub h);
                      ended := ended h |} s
  | None => s
  end.

(** The closure of lines 27 to 30 for handle [k]. *)
Definition rotate (k : nat) (s : State) : State :=
  restart k ByRotation (cancel k (finish k ByRotation s)).

Definition run_task (task : Task) (s : State) : State :=
  match task with
  | PullLoop origin => pullLoop (Some origin) s
  | Rotate k => rotate k s
  end.

(** The timer that fires next: the earliest due, the one set first among
    equals. *)
Fixpoint pop_earliest (ts : list (Z * Task)) : option ((Z * Task) * list (Z * Task)) :=
  match ts with
  | [] => None
  | x :: rest =>
      match pop_earliest rest with
      | Some (y, rest') =>
          if fst y <? fst x then Some (y, x :: rest') else Some (x, rest)
      | None => Some (x, [])
      end
  end.

(** What the event loop runs: the next timer, or a socket event of handle
    [k] at time [t]. *)
Inductive Event :=
| Timer
| Socket (t : Z) (k : nat) (e : wsevent).

Section WithEnv.
Context `{Env}.

(** A socket event of handle [k]: the listener runs on its subscription,
    and the signals that come out reach the callbacks. *)
Definition socket (k : nat) (e : wsevent) (s : State) : option State :=
  match handles s !! k with
  | Some h =>
      match on e (sub h) with
      | Return sub' =>
          let h' := {| opened_at := opened_at h; opened_by := opened_by h;
                       sub := sub'; ended := ended h |} in
          Some (foldl (callback k) (set_handle k h' s) (news (sub h) sub'))
      | Throw _ => None
      end
  | None => None
  end.

(** One turn of the event loop.  A timer runs at the time it is due; a
    socket event at [t] runs when the clock has not passed [t] and no
    timer is due before [t].  An exception that leaves a listener is
    uncaught and ends the process. *)
Definition step (ev : Event) (s : State) : option State :=
  match ev with
  | Timer =>
      match pop_earliest (timers s) with
      | Some ((due, task), rest) =>
          Some (run_task task {| now := due; timers := rest;
                                 handles := handles s;
                                 restarts := restarts s |})
      | None => None
      end
  | Socket t k e =>
      if bool_decide (now s ≤ t) && forallb (fun x => t <=? fst x) (timers s)
      then socket k e {| now := t; timers := timers s;
                         handles := handles s; restarts := restarts s |}
      else None
  end.

Fixpoint exec (evs : list Event) (s : State) : option State :=
  match evs with
  | [] => Some s
  | ev :: rest =>
      match step ev s with
      | Some s' => exec rest s'
      | None => None
      end
  end.

End WithEnv.

(** The script calls [pullLoop()] once the database is ready, at [t]. *)
Definition boot (t : Z) : State :=
  pullLoop None {| now := t; timers := []; handles := []; restarts := [] |}.

Definition reachable `{Env} (s : State) : Prop :=
  ∃ t evs, exec evs (boot t) = Some s.

(** The handles that are live, and the restarts issued for a handle. *)
Definition live_handles (s : State) : list nat :=
  filter (fun k => live <$> handles s !! k = Some true)
         (seq 0 (length (handles s))).

Definition restarts_for (k : nat) (s : State) : list (Z * Origin) :=
  filter (fun r => fst (snd r) = k) (restarts s).

(** The restarts that signals of handle [k] have issued. *)
Definition signalled_restarts (k : nat) (s : State) : list (Z * Origin) :=
  filter (fun r => fst (snd r) = k ∧ snd (snd r) ≠ ByRotation) (restarts s).

(** Handle [k] is the only one that may be live, and no timer is due before
    [d]. *)
Definition alone (k : nat) (s : State) : Prop :=
  ∀ j h, j ≠ k → handles s !! j = Some h → closed (sub h) = true.

Definition nothing_due_before (d : Z) (s : State) : Prop :=
  ∀ y, y ∈ timers s → d ≤ fst y.

(** The signals a socket event of handle [k] makes its subscription
    deliver. *)
Definition signals `{Env} (k : nat) (e : wsevent) (s : State) : list signal :=
  match handles s !! k with
  | Some h =>
      match on e (sub h) with
      | Return sub' => news (sub h) sub'
      | Throw _ => []
      end
  | None => []
  end.

(** *** The invariant of the event loop *)

Definition rotation_timer (k : nat) (h : Handle) : Z * Task :=
  (opened_at h + autoRebootInterval, Rotate k).

Definition rotation_restart (k : nat) (h : Handle) : Z * Origin :=
  (opened_at h + autoRebootInterval + autoRebootHangTime, (k, ByRotation)).

(** What holds of each handle: a live handle has its rotation timer
    pending and no restart; a handle ended by its rotation timer ended when
    the timer was due and has the one restart of the rotation; a handle
    ended by a signal has the restart of the signal, and that of the
    rotation too once the timer has fired. *)
Definition handle_ok (s : State) (k : nat) (h : Handle) : Prop :=
  opened_at h ≤ now s ∧
  match ended h with
  | None =>
      closed (sub h) = false
      ∧ (rotation_timer k h ∈ timers s)
      ∧ restarts_for k s = []
  | Some (t, ByRotation) =>
      closed (sub h) = true
      ∧ t = opened_at h + autoRebootInterval ∧ t ≤ now s
      ∧ (Rotate k ∉ (timers s).*2)
      ∧ restarts_for k s = [rotation_restart k h]
  | Some (t, c) =>
      closed (sub h) = true
      ∧ opened_at h ≤ t ∧ t ≤ now s
      ∧ (((rotation_timer k h ∈ timers s)
          ∧ restarts_for k s = [(t + delay c, (k, c))])
         ∨ ((Rotate k ∉ (timers s).*2)
            ∧ opened_at h + autoRebootInterval ≤ now s
            ∧ restarts_for k s = [(t + delay c, (k, c)); rotation_restart k h]))
  end.

Record Inv (s : State) : Prop := {
  inv_time : ∀ d task, (d, task) ∈ timers s → now s ≤ d;
  inv_tasks : NoDup (timers s).*2;
  inv_rotate_range : ∀ d k, (d, Rotate k) ∈ timers s → (k < length (handles s))%nat;
  inv_restart_range :
    ∀ d k c, (d, (k, c)) ∈ restarts s → (k < length (handles s))%nat;
  inv_pending : ∀ d o, (d, PullLoop o) ∈ timers s → (d, o) ∈ restarts s;
  inv_opened :
    ∀ j h o, handles s !! j = Some h → opened_by h = Some o →
             (opened_at h, o) ∈ restarts s ∧ PullLoop o ∉ (timers s).*2;
  inv_issued :
    ∀ d o, (d, o) ∈ restarts s →
           (d, PullLoop o) ∈ timers s
           ∨ ∃ j h, handles s !! j = Some h ∧ opened_by h = Some o
                    ∧ opened_at h = d;
  inv_handles : ∀ k h, handles s !! k = Some h → handle_ok s k h
}.

End Sync.

(** ** Sample data

    An environment with two supported assets, some frames of the feed, and
    some runs of the event loop from a start at time 0. *)
Module Demo.
Import Utils Js Rx Provider Sync.

Definition env : Env :=
  {| allTickers := ["BTC"; "USD"]%string; COINAPI_KEY := Some "key"%string |}.

Definition error_down : json :=
  JObj [("type", JStr "error"); ("message", JStr "network down")]%string.

Definition trade : json :=
  JObj [("type", JStr "trade"); ("symbol_id", JStr "KRAKEN_SPOT_BTC_USD");
        ("price", JNum 50000)]%string.

Definition trade_margin : json :=
  JObj [("type", JStr "trade"); ("symbol_id", JStr "KRAKEN_MARGIN_BTC_USD");
        ("price", JNum 1)]%string.

Definition trade_without_price : json :=
  JObj [("type", JStr "trade"); ("symbol_id", JStr "KRAKEN_SPOT_BTC_USD")]%string.

Definition trade_text_price : json :=
  JObj [("type", JStr "trade"); ("symbol_id", JStr "KRAKEN_SPOT_BTC_USD");
        ("price", JStr "n/a")]%string.

Definition quote : json :=
  JObj [("type", JStr "quote"); ("symbol_id", JStr "KRAKEN_SPOT_BTC_USD")]%string.

Definition btc_usd : PairExchangeId := mkId "KRAKEN" "BTC" "USD".

Definition with_separator : PairExchangeId := mkId "A_B" "BTC" "USD".

Definition after (evs : list Event) : State :=
  default (boot 0) (exec (H := env) evs (boot 0)).

(** The first connection reports an error as soon as it is opened. *)
Definition errored_events : list Event :=
  [Socket 0 0 (Message (Parses error_down))].

Definition errored : State := after errored_events.

(** The first connection stays silent; its rotation timer fires, the
    socket reports its close half a second later, and the restart fires. *)
Definition rotated_events : list Event :=
  [Timer; Socket 14400500 0 (Closed 1000); Timer].

Definition rotated : State := after rotated_events.

Definition rotated_first : Handle :=
  {| opened_at := 0; opened_by := None;
     sub := {| closed := true; delivered := []; wire := [Close] |};
     ended := Some (14400000, ByRotation) |}.

(** The first connection reports an error as soon as it is opened and its
    socket closes; the restart of the error fires, then the rotation timer
    of the first connection, then the restart of that rotation. *)
Definition leaked_events : list Event :=
  [Socket 0 0 (Message (Parses error_down)); Socket 5 0 (Closed 1000);
   Timer; Timer; Timer].

Definition leaked : State := after leaked_events.

(** The first connection reports an error one second before its rotation
    timer is due; the rotation timer fires, then the restart of the
    rotation. *)
Definition early_error : Event :=
  Socket 14399000 0 (Message (Parses error_down)).

Definition early_events : list Event := [early_error; Timer; Timer].

Definition early : State := after early_events.

End Demo.

(** ** JavaScript arrays: [Array.prototype.join] *)
Module Arr.

(** [pieces.join(c)]: the pieces with [c] between them; no piece gives the
    empty string. *)
Fixpoint join (c : ascii) (pieces : list string) : string :=
  match pieces with
  | [] => EmptyString
  | piece :: rest =>
      match rest with
      | [] => piece
      | _ => piece +:+ String c (join c rest)
      end
  end.

End Arr.

(** ** [src/providers/coinapi.js]: the list of available pairs *)
Module Rest.
Import Utils.

(** [CoinAPI_Symbol] *)
Record CoinAPI_Symbol := mkSymbol {
  symbol_id : string;
  exchange_id : string;
  symbol_type : string;
  asset_id_base : string;
  asset_id_quote : string
}.

(** What [await get("/v1/symbols", ...)] gives: [get] rethrows the error of
    the request, or returns the body, which is typed as a list of symbols
    and tested for being a string. *)
Inductive response (E : Type) :=
| Rejected (error : E)
| Body (text : string)
| Symbols (items : list CoinAPI_Symbol).
Arguments Rejected {E} error.
Arguments Body {E} text.
Arguments Symbols {E} items.

(** How [fetchAvailablePairExchanges] ends when it throws: with the error of
    [get], or with its own
    [new Error("/v1/symbols payload is invalid! Got a string!")]. *)
Inductive failure (E : Type) :=
| Rethrown (error : E)
| InvalidPayload.
Arguments Rethrown {E} error.
Arguments InvalidPayload {E}.

Section WithEnv.
Context `{Env}.

(** The [for (const item of list)] loop, with [pairExchanges] as it stands
    when the loop reaches the items left. *)
Fixpoint collect (items : list CoinAPI_Symbol) (pairExchanges : list PairExchange)
  : list PairExchange :=
  match items with
  | [] => pairExchanges
  | item :: rest =>
      match Codec.symbolToPairExchange (symbol_id item) with
      | Some pairExchange =>
          if supportTicker (pe_from pairExchange) && supportTicker (pe_to pairExchange)
          then collect rest (pairExchanges ++ [pairExchange])
          else collect rest pairExchanges
      | None => collect rest pairExchanges
      end
  end.

Definition fetchAvailablePairExchanges {E} (r : response E)
  : failure E + list PairExchange :=
  match r with
  | Rejected error => inl (Rethrown error)
  | Body _ => inl InvalidPayload
  | Symbols items => inr (collect items [])
  end.

End WithEnv.

End Rest.

(** ** A subscription in use

    What happens to a subscription of [subscribePriceUpdate()] in the course
    of time: events of its socket, and calls of [unsubscribe()] by the
    consumer. *)
Module Client.
Import Js Rx Provider.

Inductive action :=
| Event (e : wsevent)
| Unsubscribe.

Definition act `{Env} (a : action) (sub : Subscription) : completion Subscription :=
  match a with
  | Event e => on e sub
  | Unsubscribe => Return (sub_unsubscribe sub)
  end.

Fixpoint drive `{Env} (acts : list action) (sub : Subscription)
  : completion Subscription :=
  match acts with
  | [] => Return sub
  | a :: rest =>
      match act a sub with
      | Return sub' => drive rest sub'
      | Throw x => Throw x
      end
  end.

(** The messages sent on the socket, and the number of ["open"] events. *)
Definition sent (ops : list wsop) : list Hello :=
  omap (fun op => match op with Send h => Some h | Close => None end) ops.

Definition is_open (a : action) : bool :=
  match a with
  | Event Open => true
  | _ => false
  end.

Definition opens (acts : list action) : nat :=
  length (filter (fun a => is_open a = true) acts).

(** The signals of a subscription in the order of the observable contract:
    ticks, then at most one terminal signal, after which the subscriber is
    stopped. *)
Definition orderly (sub : Subscription) : Prop :=
  ∃ evs last,
    delivered sub = (Next <$> evs) ++ last
    ∧ (last = [] ∨ ∃ n, last = [n] ∧ terminal n = true ∧ closed sub = true).

End Client.

(** ** The loop as a whole *)
Module Loop.
Import Provider Sync.

(** The restarts that are pending: the timers that will call [pullLoop]. *)
Definition is_pullLoop (x : Z * Task) : bool :=
  match snd x with
  | PullLoop _ => true
  | Rotate _ => false
  end.

Definition pending_restarts (s : State) : list (Z * Task) :=
  filter (fun x => is_pullLoop x = true) (timers s).

(** No handle has been ended by the error signal or by the completion
    signal. *)
Definition rotation_only (s : State) : Prop :=
  ∀ k h t c, handles s !! k = Some h → ended h = Some (t, c) → c = ByRotation.

(** The two states of a loop with one connection: the last handle is live
    and the one pending timer is its rotation timer, or no handle is live
    and the one pending timer is the restart of the last rotation. *)
Definition alternating (s : State) : Prop :=
  ∃ K hK,
    length (handles s) = S K
    ∧ handles s !! K = Some hK
    ∧ (∀ j h, handles s !! j = Some h → closed (sub h) = false → j = K)
    ∧ ((closed (sub hK) = false ∧ (timers s).*2 = [Rotate K])
       ∨ (closed (sub hK) = true ∧ (timers s).*2 = [PullLoop (K, ByRotation)])).

(** Each handle opened by a restart was opened after the handle the restart
    was issued for, and no two handles were opened by the same restart. *)
Definition ordered_origins (s : State) : Prop :=
  (∀ j h k c, handles s !! j = Some h → opened_by h = Some (k, c) → (k < j)%nat)
  ∧ (∀ j j' h h' o, handles s !! j = Some h → handles s !! j' = Some h' →
                    opened_by h = Some o → opened_by h' = Some o → j = j').

End Loop.

(** ** More sample data

    A reply of [/v1/symbols], a subscription in use, and handles of the
    sample runs. *)
Module Sample.
Import Utils Js Rx Provider Sync Rest Client.

Definition symbols : list CoinAPI_Symbol :=
  [mkSymbol "KRAKEN_SPOT_BTC_USD" "KRAKEN" "SPOT" "BTC" "USD";
   mkSymbol "KRAKEN_FUTURES_BTC_USD" "KRAKEN" "FUTURES" "BTC" "USD";
   mkSymbol "KRAKEN_SPOT_ETH_USD" "KRAKEN" "SPOT" "ETH" "USD"]%string.

Definition more_symbols : list CoinAPI_Symbol :=
  [mkSymbol "BITSTAMP_SPOT_BTC_USD" "BITSTAMP" "SPOT" "BTC" "USD"]%string.

Definition kraken_btc_usd : PairExchange :=
  {| pe_id := Demo.btc_usd; pe_from := "BTC"; pe_to := "USD";
     pe_exchange := "KRAKEN" |}.

Definition bitstamp_btc_usd : PairExchange :=
  {| pe_id := mkId "BITSTAMP" "BTC" "USD"; pe_from := "BTC"; pe_to := "USD";
     pe_exchange := "BITSTAMP" |}.

Definition tick : PriceUpdate :=
  {| pairExchangeId := Demo.btc_usd; price := Some (JNum 50000) |}.

(** The socket opens, a trade and then an error frame arrive, the socket
    closes, and the consumer unsubscribes. *)
Definition session : list action :=
  [Event Open; Event (Message (Parses Demo.trade));
   Event (Message (Parses Demo.error_down)); Event (Closed 1000); Unsubscribe].

Definition session_end : Subscription :=
  {| closed := true;
     delivered := [Next tick; Error (Some (JStr "network down"))];
     wire := [Send (hello (H := Demo.env)); Close; Close] |}.

Definition leaked_first : Handle :=
  {| opened_at := 0; opened_by := None;
     sub := {| closed := true;
               delivered := [Error (Some (JStr "network down"))];
               wire := [Close; Close] |};
     ended := Some (0, ByError) |}.

End Sample.

(** * Properties *)

Module StrFacts.
Import Str.

Lemma split_nonempty c s : split c s ≠ [].
Proof. destruct s as [|a r]; simpl; [done|]. destruct (Ascii.eqb a c); [done|]. by destruct (split c r). Qed.

Lemma split_whole c s : includes c s = false → split c s = [s].
Proof.
  induction s as [|a r IH]; simpl; [done|].
  intros [Ha Hr]%orb_false_iff. rewrite Ha, (IH Hr). done.
Qed.

Lemma split_app c a b :
  includes c a = false → split c (a +:+ String c b) = a :: split c b.
Proof.
  induction a as [|x r IH]; simpl.
  - intros _. by rewrite Ascii.eqb_refl.
  - intros [Hx Hr]%orb_false_iff. rewrite Hx, (IH Hr). done.
Qed.

Lemma split_pieces c s piece : piece ∈ split c s → includes c piece = false.
Proof.
  revert piece. induction s as [|a r IH]; simpl; intros piece.
  - intros ->%list_elem_of_singleton. done.
  - destruct (Ascii.eqb a c) eqn:Hac.
    + intros [->| Hin]%elem_of_cons; [done | by apply IH].
    + pose proof (split_nonempty c r) as Hne.
      destruct (split c r) as [|p ps]; [done|].
      intros [->| Hin]%elem_of_cons.
      * simpl. rewrite Hac. simpl. apply IH. by left.
      * apply IH. by right.
Qed.

End StrFacts.

(** ** The codec *)
Module CodecFacts.
Import Str StrFacts Utils Codec.

Section WithEnv.
Context `{Env}.

Lemma pairExchange_unsupported exchange from to asset :
  (from = Some asset ∨ to = Some asset) → supportTicker asset = false →
  pairExchange exchange from to = None.
Proof.
  intros Hor Hno. unfold pairExchange.
  destruct from as [f|], to as [t|]; try done.
  destruct Hor as [[= ->] | [= ->]]; rewrite Hno; [done|].
  by rewrite andb_false_r.
Qed.

(** C6: a wire symbol whose instrument-type piece is not ["SPOT"] decodes
    to nothing, and so does a wire symbol one of whose two assets is not
    supported. *)
Theorem decode_rejects symbol :
  (instrumentType symbol ≠ Some "SPOT"%string
   ∨ ∃ asset, asset ∈ assets symbol ∧ supportTicker asset = false) →
  symbolToPairExchange symbol = None.
Proof.
  unfold instrumentType, assets, symbolToPairExchange.
  destruct (split sep symbol) as [|exchange [|type rest]]; [done..|].
  simpl. intros [Hty | (asset & Hin & Hno)].
  - destruct (String.eqb_spec type "SPOT") as [->|]; [|done]. by destruct Hty.
  - destruct (String.eqb type "SPOT"); [|done].
    apply pairExchange_unsupported with asset; [|done].
    destruct rest as [|f [|t more]]; simpl in *.
    + by apply elem_of_nil in Hin.
    + apply list_elem_of_singleton in Hin as ->. by left.
    + apply elem_of_cons in Hin as [->|Hin]; [by left|].
      apply list_elem_of_singleton in Hin as ->. by right.
Qed.

Lemma split_symbol e f t :
  includes sep e = false → includes sep f = false → includes sep t = false →
  split sep (e +:+ "_SPOT_" +:+ f +:+ "_" +:+ t) = [e; "SPOT"%string; f; t].
Proof.
  intros He Hf Ht.
  change (e +:+ "_SPOT_" +:+ f +:+ "_" +:+ t)
    with (e +:+ String sep ("SPOT" +:+ String sep (f +:+ String sep t))).
  rewrite (split_app _ e) by done.
  rewrite (split_app _ "SPOT") by done.
  rewrite (split_app _ f) by done.
  by rewrite (split_whole _ t).
Qed.

Lemma encode_template e f t :
  includes sep e = false → includes sep f = false → includes sep t = false →
  pairExchangeFromId (mkId e f t)
  = Ok {| pe_id := mkId e f t; pe_from := f; pe_to := t; pe_exchange := e |}
  ∧ pairExchangeIdToSymbol (mkId e f t)
    = Ok (e +:+ "_SPOT_" +:+ f +:+ "_" +:+ t).
Proof.
  intros He Hf Ht. unfold pairExchangeIdToSymbol, pairExchangeFromId, has_separator.
  simpl. by rewrite He, Hf, Ht.
Qed.

(** C7: the encoder gives a wire symbol for a valid identifier, and
    decoding that wire symbol gives the identifier back, in the object the
    identifier has. *)
Theorem decode_encode i :
  valid_id i = true →
  ∃ symbol pe,
    pairExchangeIdToSymbol i = Ok symbol
    ∧ pairExchangeFromId i = Ok pe
    ∧ symbolToPairExchange symbol = Some pe
    ∧ pe_id pe = i.
Proof.
  unfold valid_id. destruct i as [e f t].
  intros [[Hsep Hf]%andb_true_iff Ht]%andb_true_iff. simpl in Hf, Ht.
  apply negb_true_iff in Hsep. unfold has_separator in Hsep. simpl in Hsep.
  apply orb_false_iff in Hsep as [[He Hf']%orb_false_iff Ht'].
  destruct (encode_template e f t) as [Hfrom Henc]; [done..|].
  eexists _, _. split_and!; [exact Henc | exact Hfrom | | done].
  unfold symbolToPairExchange. rewrite split_symbol by done. simpl.
  unfold pairExchange. by rewrite Hf, Ht.
Qed.

(** C8: for an identifier one of whose fields holds the separator the
    encoder fails with the encoding error and gives no wire symbol. *)
Theorem encode_with_separator i :
  has_separator i = true →
  pairExchangeIdToSymbol i = EncodingError
  ∧ ∀ symbol, pairExchangeIdToSymbol i ≠ Ok symbol.
Proof.
  intros Hsep. unfold pairExchangeIdToSymbol, pairExchangeFromId.
  rewrite Hsep. by split.
Qed.

End WithEnv.

End CodecFacts.

(** ** The subscription *)
Module ProviderFacts.
Import Utils Js Rx Provider.

Section WithEnv.
Context `{Env}.

Lemma news_same sub sub' : delivered sub' = delivered sub → news sub sub' = [].
Proof. unfold news. intros ->. by rewrite drop_all. Qed.

Lemma perform_closed c sub :
  closed sub = true →
  closed (perform c sub) = true ∧ delivered (perform c sub) = delivered sub.
Proof. intros Hc. destruct c as [n|op]; simpl; rewrite ?Hc; done. Qed.

Lemma perform_all_closed cs sub :
  closed sub = true →
  closed (perform_all cs sub) = true
  ∧ delivered (perform_all cs sub) = delivered sub.
Proof.
  revert sub. induction cs as [|c cs IH]; intros sub Hc; [done|].
  unfold perform_all. simpl.
  destruct (perform_closed c sub Hc) as [Hc' Hd'].
  destruct (IH _ Hc') as [? Hd]. split; [done|].
  unfold perform_all in Hd. by rewrite Hd.
Qed.

Lemma on_closed e sub sub' :
  closed sub = true → on e sub = Return sub' →
  closed sub' = true ∧ delivered sub' = delivered sub.
Proof.
  unfold on. intros Hc. destruct (listener e) as [cs|]; [|done].
  intros [= <-]. by apply perform_all_closed.
Qed.

(** Once the subscriber is stopped, no run of socket events delivers
    anything. *)
Lemma run_closed es sub sub' :
  closed sub = true → run es sub = Return sub' →
  closed sub' = true ∧ delivered sub' = delivered sub.
Proof.
  revert sub. induction es as [|e es IH]; intros sub Hc; simpl.
  - by intros [= <-].
  - destruct (on e sub) as [sub1|] eqn:Hon; [|done].
    destruct (on_closed _ _ _ Hc Hon) as [Hc1 Hd1].
    intros Hrun. destruct (IH _ Hc1 Hrun) as [? Hd]. by rewrite Hd.
Qed.

Lemma sub_unsubscribe_closed sub : closed (sub_unsubscribe sub) = true.
Proof. unfold sub_unsubscribe. by destruct (closed sub) eqn:Hc. Qed.

Lemma sub_unsubscribe_delivered sub : delivered (sub_unsubscribe sub) = delivered sub.
Proof. unfold sub_unsubscribe. by destruct (closed sub). Qed.

Lemma sub_unsubscribe_idempotent sub : sub_unsubscribe (sub_unsubscribe sub) = sub_unsubscribe sub.
Proof. unfold sub_unsubscribe at 1. by rewrite sub_unsubscribe_closed. Qed.

(** The calls a listener can make. *)
Lemma listener_calls e cs :
  listener e = Return cs →
  cs = [] ∨ cs = [Ws (Send hello)] ∨ cs = [O Complete]
  ∨ (∃ ev, cs = [O (Next ev)]) ∨ (∃ m, cs = [O (Error m); Ws Close]).
Proof.
  destruct e as [|[|r]|code|]; simpl; try done.
  - intros [= <-]. auto.
  - unfold onParsed. destruct (is_object r); [|intros [= <-]; auto].
    destruct (is_string "error" (get r "type")).
    + intros [= <-]. do 4 right. eauto.
    + destruct (get r "symbol_id") as [[| | |symbol| |]|]; try done.
      destruct (Codec.symbolToPairExchange symbol); intros [= <-]; eauto 6.
  - intros [= <-]. auto.
Qed.

Lemma perform_all_open_next sub ev :
  closed sub = false →
  perform_all [O (Next ev)] sub
  = {| closed := false; delivered := delivered sub ++ [Next ev]; wire := wire sub |}.
Proof. intros Hc. unfold perform_all. simpl. by rewrite Hc. Qed.

Lemma perform_all_open_error sub m :
  closed sub = false →
  perform_all [O (Error m); Ws Close] sub
  = {| closed := true; delivered := delivered sub ++ [Error m];
       wire := (wire sub ++ unsubscribe) ++ [Close] |}.
Proof. intros Hc. unfold perform_all. simpl. by rewrite Hc. Qed.

Lemma perform_all_open_complete sub :
  closed sub = false →
  perform_all [O Complete] sub
  = {| closed := true; delivered := delivered sub ++ [Complete];
       wire := wire sub ++ unsubscribe |}.
Proof. intros Hc. unfold perform_all. simpl. by rewrite Hc. Qed.

Lemma news_grown sub sub' l :
  delivered sub' = delivered sub ++ l → news sub sub' = l.
Proof. unfold news. intros ->. by rewrite drop_app_length. Qed.

(** What one socket event does to a subscription: nothing is delivered
    on a stopped one; on a live one at most one signal is delivered, and
    the subscriber stops exactly when that signal is terminal. *)
Lemma on_effect e sub sub' :
  on e sub = Return sub' →
  delivered sub' = delivered sub ++ news sub sub'
  ∧ (if closed sub
     then closed sub' = true ∧ news sub sub' = []
     else (closed sub' = false
           ∧ (news sub sub' = [] ∨ ∃ ev, news sub sub' = [Next ev]))
          ∨ (closed sub' = true
             ∧ ∃ n, news sub sub' = [n] ∧ terminal n = true)).
Proof.
  intros Hon. destruct (closed sub) eqn:Hc.
  - destruct (on_closed _ _ _ Hc Hon) as [Hc' Hd].
    rewrite (news_same _ _ Hd), app_nil_r. done.
  - unfold on in Hon. destruct (listener e) as [cs|] eqn:Hl; [|done].
    injection Hon as <-.
    destruct (listener_calls _ _ Hl)
      as [->|[->|[->|[[ev ->]|[m ->]]]]].
    + unfold perform_all. simpl. rewrite news_same, app_nil_r by done.
      rewrite Hc. auto.
    + unfold perform_all. simpl. rewrite news_same, app_nil_r by done.
      rewrite Hc. auto.
    + rewrite perform_all_open_complete by done. simpl.
      rewrite (news_grown _ _ [Complete]) by done. eauto 7.
    + rewrite perform_all_open_next by done. simpl.
      rewrite (news_grown _ _ [Next ev]) by done. eauto 7.
    + rewrite perform_all_open_error by done. simpl.
      rewrite (news_grown _ _ [Error m]) by done. eauto 7.
Qed.

(** C4, as the code has it: on a live subscription an error frame of the
    provider is delivered as the error signal, with the provider's
    message, and nothing is delivered after it, so never a completion;
    a ["close"] event of the socket, whatever its code, is delivered as
    the completion signal, and nothing is delivered after it. *)
Theorem error_frame_errors_close_completes sub :
  closed sub = false →
  (∀ r, error_frame r = true →
     ∃ sub', on (Message (Parses r)) sub = Return sub'
             ∧ delivered sub' = delivered sub ++ [Error (get r "message")]
             ∧ ∀ es sub'', run es sub' = Return sub'' →
                           delivered sub'' = delivered sub')
  ∧ (∀ code,
     ∃ sub', on (Closed code) sub = Return sub'
             ∧ delivered sub' = delivered sub ++ [Complete]
             ∧ ∀ es sub'', run es sub' = Return sub'' →
                           delivered sub'' = delivered sub').
Proof.
  intros Hc. split.
  - intros r [Hobj Hty]%andb_true_iff.
    eexists. split.
    + unfold on. simpl. unfold onParsed. rewrite Hobj, Hty.
      by rewrite perform_all_open_error.
    + split; [done|]. intros es sub'' Hrun.
      by apply run_closed in Hrun as [_ ->].
  - intros code. eexists. split.
    + unfold on, listener. by rewrite perform_all_open_complete.
    + split; [done|]. intros es sub'' Hrun.
      by apply run_closed in Hrun as [_ ->].
Qed.

(** C5, as the code has it: a frame that parses to a value that is no
    object, or to an object not tagged as an error whose [symbol_id] is a
    string that decodes to no pair, is dropped in silence: the listener
    returns and the subscription is as before, with nothing delivered
    and nothing stopped.  The declared type is compared with ["error"]
    only. *)
Theorem undecodable_frame_dropped sub r :
  (is_object r = false
   ∨ (error_frame r = false
      ∧ ∃ symbol, get r "symbol_id" = Some (JStr symbol)
                  ∧ Codec.symbolToPairExchange symbol = None)) →
  on (Message (Parses r)) sub = Return sub.
Proof.
  unfold on, error_frame. simpl. unfold onParsed.
  intros [-> | (Hne & symbol & -> & ->)]; [done|].
  destruct (is_object r); [|done]. simpl in Hne. by rewrite Hne.
Qed.

(** C10: on a live subscription, a parsed frame that is an object, is
    not tagged as an error and whose [symbol_id] decodes to a pair is
    delivered to the sink with that pair's identifier and with whatever
    the frame has under [price], be it absent or no number. *)
Theorem price_passed_verbatim sub r symbol pe :
  closed sub = false →
  is_object r = true →
  is_string "error" (get r "type") = false →
  get r "symbol_id" = Some (JStr symbol) →
  Codec.symbolToPairExchange symbol = Some pe →
  on (Message (Parses r)) sub
  = Return {| closed := false;
              delivered := delivered sub
                           ++ [Next {| pairExchangeId := pe_id pe;
                                       price := get r "price" |}];
              wire := wire sub |}.
Proof.
  intros Hc Hobj Hty Hsym Hpe. unfold on. simpl. unfold onParsed.
  rewrite Hobj, Hty, Hsym, Hpe. by rewrite perform_all_open_next.
Qed.

End WithEnv.

End ProviderFacts.

(** ** The supervisor *)
Module SyncFacts.
Import Js Rx Provider ProviderFacts Sync.

Lemma pop_earliest_spec ts x rest :
  pop_earliest ts = Some (x, rest) →
  ts ≡ₚ x :: rest ∧ Forall (fun y => fst x ≤ fst y) rest.
Proof.
  revert x rest. induction ts as [|a ts IH]; intros x rest; simpl; [done|].
  destruct (pop_earliest ts) as [[y rest']|] eqn:Hpop.
  - destruct (IH _ _ eq_refl) as [Hperm Hall].
    destruct (Z.ltb_spec (fst y) (fst a)); intros [= <- <-].
    + split.
      * rewrite Hperm. apply perm_swap.
      * constructor; [lia | done].
    + split; [done|]. rewrite Hperm. constructor; [done|].
      eapply List.Forall_impl; [|exact Hall]. intros ? ?; simpl in *; lia.
  - intros [= <- <-]. destruct ts as [|b ts]; [done|].
    simpl in Hpop. destruct (pop_earliest ts) as [[? ?]|]; [|done].
    by destruct (_ <? _).
Qed.

Lemma pair_task_unique (ts : list (Z * Task)) a b task :
  NoDup ts.*2 → (a, task) ∈ ts → (b, task) ∈ ts → a = b.
Proof.
  induction ts as [|[d x] ts IH]; simpl; [by intros _ ?%elem_of_nil|].
  intros [Hnot Hnd]%NoDup_cons [Ha|Ha]%elem_of_cons [Hb|Hb]%elem_of_cons;
    simplify_eq; try done.
  - exfalso. apply Hnot. apply list_elem_of_fmap. by exists (b, x).
  - exfalso. apply Hnot. apply list_elem_of_fmap. by exists (a, x).
  - by apply IH.
Qed.

Lemma restarts_for_elem k s x :
  x ∈ restarts_for k s ↔ x ∈ restarts s ∧ fst (snd x) = k.
Proof. unfold restarts_for. rewrite list_elem_of_filter. tauto. Qed.

Lemma delay_pos c : 0 < delay c.
Proof. by destruct c. Qed.

Lemma task_elem (ts : list (Z * Task)) task :
  task ∈ ts.*2 ↔ ∃ d, (d, task) ∈ ts.
Proof.
  rewrite list_elem_of_fmap. split.
  - intros ([d x] & -> & Hin). by exists d.
  - intros [d Hin]. by exists (d, task).
Qed.

Lemma pop_facts s x rest :
  Inv s → pop_earliest (timers s) = Some (x, rest) →
  x ∈ timers s
  ∧ (∀ y, y ∈ timers s ↔ y = x ∨ y ∈ rest)
  ∧ now s ≤ fst x
  ∧ (∀ y, y ∈ rest → fst x ≤ fst y)
  ∧ (snd x ∉ rest.*2)
  ∧ NoDup rest.*2.
Proof.
  intros HI Hpop. destruct (pop_earliest_spec _ _ _ Hpop) as [Hperm Hmin].
  assert (∀ y, y ∈ timers s ↔ y = x ∨ y ∈ rest) as Hin.
  { intros y. by rewrite Hperm, elem_of_cons. }
  assert (x ∈ timers s) as Hx by (apply Hin; by left).
  pose proof (inv_tasks _ HI) as Hnd.
  rewrite Hperm, fmap_cons in Hnd. apply NoDup_cons in Hnd as [Hnot Hnd].
  split_and!; try done.
  - destruct x as [d task]. by apply (inv_time _ HI d task).
  - by apply Forall_forall.
Qed.

(** A handle that a step leaves alone stays well when the clock does not
    go back, its rotation timer is kept in the state it has, and its
    restarts are the same. *)
Lemma handle_ok_frame s s' k h :
  handle_ok s k h →
  now s ≤ now s' →
  (rotation_timer k h ∈ timers s → rotation_timer k h ∈ timers s') →
  (Rotate k ∉ (timers s).*2 → Rotate k ∉ (timers s').*2) →
  restarts_for k s' = restarts_for k s →
  handle_ok s' k h.
Proof.
  unfold handle_ok. intros [Hopen Hcase] Hnow Hkeep Hgone ->.
  split; [lia|].
  destruct (ended h) as [[t []]|].
  - destruct Hcase as (? & ? & ? & [[? ?]|(? & ? & ?)]);
      repeat split; try done; try lia; [left | right]; repeat split; auto; lia.
  - destruct Hcase as (? & ? & ? & [[? ?]|(? & ? & ?)]);
      repeat split; try done; try lia; [left | right]; repeat split; auto; lia.
  - destruct Hcase as (? & ? & ? & ? & ?). repeat split; auto; lia.
  - destruct Hcase as (? & ? & ?). repeat split; auto.
Qed.

Lemma restarts_for_none s k :
  (∀ d c, (d, (k, c)) ∉ restarts s) → restarts_for k s = [].
Proof.
  intros Hno. unfold restarts_for.
  induction (restarts s) as [|[d [k' c]] rs IH]; [done|].
  rewrite filter_cons. simpl. destruct (decide (k' = k)) as [->|Hne].
  - exfalso. apply (Hno d c). by left.
  - apply IH. intros d' c' Hin. apply (Hno d' c'). by right.
Qed.

Lemma Inv_boot t : Inv (boot t).
Proof.
  unfold boot, pullLoop, setTimeout. simpl.
  constructor; simpl.
  - intros d task [= -> ->]%list_elem_of_singleton.
    unfold autoRebootInterval. lia.
  - apply NoDup_singleton.
  - intros d k [= _ ->]%list_elem_of_singleton. lia.
  - by intros d k c ?%elem_of_nil.
  - by intros d o [=]%list_elem_of_singleton.
  - intros [|j] h o; simpl; [by intros [= <-]|done].
  - by intros d o ?%elem_of_nil.
  - intros [|k] h; simpl; [intros [= <-]|done].
    unfold handle_ok. simpl. split_and!; [lia | done | | done].
    by apply list_elem_of_singleton.
Qed.

(** A [pullLoop] timer fires. *)
Lemma Inv_pullLoop s d o rest :
  Inv s → pop_earliest (timers s) = Some ((d, PullLoop o), rest) →
  Inv (pullLoop (Some o) {| now := d; timers := rest;
                            handles := handles s; restarts := restarts s |}).
Proof.
  intros HI Hpop.
  destruct (pop_facts _ _ _ HI Hpop) as (Hx & Hin & Hnow & Hmin & Hnot & Hnd).
  simpl in *.
  assert (∀ y, y ∈ rest → y ∈ timers s) as Hsub by (intros y ?; apply Hin; by right).
  assert (0 < autoRebootInterval) as HL by done.
  unfold pullLoop, setTimeout. simpl.
  constructor; simpl.
  - intros d' task [Hy | [= -> ->]%list_elem_of_singleton]%elem_of_app;
      [apply (Hmin _ Hy) | lia].
  - rewrite fmap_app. simpl. apply NoDup_app.
    split_and!; [done | | apply NoDup_singleton].
    intros task [d' Hy]%task_elem ->%list_elem_of_singleton.
    apply Hsub, (inv_rotate_range _ HI) in Hy. lia.
  - intros d' k. rewrite length_app. simpl.
    intros [Hy | [= _ ->]%list_elem_of_singleton]%elem_of_app; [|lia].
    apply Hsub, (inv_rotate_range _ HI) in Hy. lia.
  - intros d' k c Hr. rewrite length_app.
    apply (inv_restart_range _ HI) in Hr. lia.
  - intros d' o' [Hy | [=]%list_elem_of_singleton]%elem_of_app.
    by apply (inv_pending _ HI), Hsub.
  - intros j h o' Hj Ho'. apply lookup_app_Some in Hj as [Hj | [Hlen Hj]].
    + destruct (inv_opened _ HI _ _ _ Hj Ho') as [Hr Hno]. split; [done|].
      rewrite fmap_app, not_elem_of_app. split; [|by intros ?%list_elem_of_singleton].
      intros [d' Hy]%task_elem. apply Hno, task_elem. exists d'. by apply Hsub.
    + apply list_lookup_singleton_Some in Hj as [_ <-]. simpl in *.
      injection Ho' as <-. split; [by apply (inv_pending _ HI)|].
      rewrite fmap_app, not_elem_of_app.
      split; [done | by intros ?%list_elem_of_singleton].
  - intros d' o' Hr.
    destruct (inv_issued _ HI _ _ Hr) as [Hy | (j & h & Hj & Hby & Hat)].
    + apply Hin in Hy as [[= -> ->] | Hy].
      * right. eexists (length (handles s)), _.
        rewrite lookup_app_r, Nat.sub_diag by lia. simpl. done.
      * left. apply elem_of_app. by left.
    + right. exists j, h. split; [|done]. by apply lookup_app_l_Some.
  - intros k h Hk. apply lookup_app_Some in Hk as [Hk | [Hlen Hk]].
    + eapply handle_ok_frame; [by apply (inv_handles _ HI) | simpl..].
      * lia.
      * intros Hy. apply elem_of_app. left. by apply Hin in Hy as [[=]|].
      * intros Hno. rewrite fmap_app, not_elem_of_app. split.
        -- intros [d' Hy]%task_elem. apply Hno, task_elem. exists d'. by apply Hsub.
        -- intros [= ->]%list_elem_of_singleton. apply lookup_lt_Some in Hk. lia.
      * done.
    + apply list_lookup_singleton_Some in Hk as [Hk0 <-].
      assert (k = length (handles s)) as -> by lia.
      unfold handle_ok. simpl. split_and!; [lia | done | |].
      * apply elem_of_app. right. by apply list_elem_of_singleton.
      * apply restarts_for_none. simpl. intros d' c Hr.
        apply (inv_restart_range _ HI) in Hr. lia.
Qed.

Lemma restarts_for_snoc j s rs x :
  restarts s = rs ++ [x] →
  restarts_for j s
  = filter (fun r => fst (snd r) = j) rs ++ (if decide (fst (snd x) = j) then [x] else []).
Proof.
  unfold restarts_for. intros ->. by rewrite filter_app.
Qed.

Lemma rotate_eq s k h :
  handles s !! k = Some h →
  rotate k s
  = {| now := now s;
       timers := timers s ++ [(now s + autoRebootHangTime, PullLoop (k, ByRotation))];
       handles := <[k := {| opened_at := opened_at h; opened_by := opened_by h;
                            sub := sub_unsubscribe (sub h);
                            ended := match ended h with
                                     | Some x => Some x
                                     | None => Some (now s, ByRotation)
                                     end |}]> (handles s);
       restarts := restarts s ++ [(now s + autoRebootHangTime, (k, ByRotation))] |}.
Proof.
  intros Hk. pose proof (lookup_lt_Some _ _ _ Hk) as Hlt.
  unfold rotate, finish. rewrite Hk. unfold cancel, set_handle. simpl.
  rewrite list_lookup_insert_eq by done. simpl.
  unfold restart, setTimeout. simpl. by rewrite list_insert_insert_eq.
Qed.

(** The state of a handle whose rotation timer is pending. *)
Lemma rotation_pending s k h d :
  Inv s → handles s !! k = Some h → (d, Rotate k) ∈ timers s →
  d = opened_at h + autoRebootInterval
  ∧ (∀ d', (d', (k, ByRotation)) ∉ restarts s)
  ∧ ((ended h = None ∧ closed (sub h) = false ∧ restarts_for k s = [])
     ∨ ∃ t c, ended h = Some (t, c) ∧ c ≠ ByRotation
              ∧ closed (sub h) = true ∧ opened_at h ≤ t ∧ t ≤ now s
              ∧ restarts_for k s = [(t + delay c, (k, c))]).
Proof.
  intros HI Hk Hd.
  assert (Rotate k ∈ (timers s).*2) as Hin by (apply task_elem; eauto).
  destruct (inv_handles _ HI _ _ Hk) as [Hopen Hcase].
  assert (rotation_timer k h ∈ timers s
          ∧ ((ended h = None ∧ closed (sub h) = false ∧ restarts_for k s = [])
             ∨ ∃ t c, ended h = Some (t, c) ∧ c ≠ ByRotation
                      ∧ closed (sub h) = true ∧ opened_at h ≤ t ∧ t ≤ now s
                      ∧ restarts_for k s = [(t + delay c, (k, c))])) as [Hrot Hsum].
  { destruct (ended h) as [[t []]|].
    - destruct Hcase as (? & ? & ? & [[? ?]|(? & ? & ?)]); [|done].
      split; [done|]. right. exists t, ByError. by split_and!.
    - destruct Hcase as (? & ? & ? & [[? ?]|(? & ? & ?)]); [|done].
      split; [done|]. right. exists t, ByComplete. by split_and!.
    - by destruct Hcase as (? & ? & ? & ? & ?).
    - destruct Hcase as (? & ? & ?). split; [done|]. by left. }
  split_and!; [|  | done].
  - by apply (pair_task_unique _ _ _ _ (inv_tasks _ HI) Hd Hrot).
  - intros d' Hr.
    assert ((d', (k, ByRotation)) ∈ restarts_for k s) as Hf
      by by apply restarts_for_elem.
    destruct Hsum as [(_ & _ & Hrf) | (t & c & _ & Hc & _ & _ & _ & Hrf)];
      rewrite Hrf in Hf.
    + by apply elem_of_nil in Hf.
    + apply list_elem_of_singleton in Hf. congruence.
Qed.

Lemma lookup_updated (hs : list Handle) k h h' j hj :
  hs !! k = Some h → opened_at h' = opened_at h → opened_by h' = opened_by h →
  <[k := h']> hs !! j = Some hj →
  ∃ hj0, hs !! j = Some hj0 ∧ opened_at hj = opened_at hj0
         ∧ opened_by hj = opened_by hj0 ∧ (j ≠ k → hj = hj0) ∧ (j = k → hj = h').
Proof.
  intros Hk Hat Hby [(-> & <- & _) | [Hne Hj]]%list_lookup_insert_Some.
  - exists h. by split_and!.
  - exists hj. by split_and!.
Qed.

Lemma lookup_update_keeps (hs : list Handle) k h h' j hj :
  hs !! k = Some h → opened_at h' = opened_at h → opened_by h' = opened_by h →
  hs !! j = Some hj →
  ∃ hj', <[k := h']> hs !! j = Some hj' ∧ opened_at hj' = opened_at hj
         ∧ opened_by hj' = opened_by hj.
Proof.
  intros Hk Hat Hby Hj. destruct (decide (j = k)) as [->|Hne].
  - exists h'. rewrite list_lookup_insert_eq by by eapply lookup_lt_Some.
    simplify_eq. done.
  - exists hj. by rewrite list_lookup_insert_ne.
Qed.

(** A step that gives handle [k] a new state and issues a restart for it,
    with the timers [rest] kept: all of them, or all but the rotation timer
    of [k]. *)
Lemma Inv_restart s k h h' c t rest :
  Inv s → handles s !! k = Some h →
  opened_at h' = opened_at h → opened_by h' = opened_by h →
  now s ≤ t →
  (∀ y, y ∈ rest → y ∈ timers s ∧ t ≤ fst y) →
  (∀ y, y ∈ timers s → y ∈ rest ∨ y = (t, Rotate k)) →
  NoDup rest.*2 →
  (∀ d, (d, (k, c)) ∉ restarts s) →
  let s' := {| now := t;
               timers := rest ++ [(t + delay c, PullLoop (k, c))];
               handles := <[k := h']> (handles s);
               restarts := restarts s ++ [(t + delay c, (k, c))] |} in
  handle_ok s' k h' →
  Inv s'.
Proof.
  intros HI Hk Hat Hby Hnow Hrest Hall Hnd Hfresh s' Hok.
  pose proof (delay_pos c) as Hpos.
  pose proof (lookup_lt_Some _ _ _ Hk) as Hlt.
  assert (∀ task, task ∉ (timers s).*2 → task ∉ rest.*2) as Hgone.
  { intros task Hno [d Hy]%task_elem. apply Hno, task_elem. exists d.
    by apply Hrest. }
  constructor; simpl.
  - intros d task [Hy | [= -> ->]%list_elem_of_singleton]%elem_of_app; [|lia].
    by apply Hrest in Hy as [_ ?].
  - rewrite fmap_app. simpl. apply NoDup_app.
    split_and!; [done | | apply NoDup_singleton].
    intros task [d Hy]%task_elem ->%list_elem_of_singleton.
    apply Hrest in Hy as [Hy _]. by apply (inv_pending _ HI), Hfresh in Hy.
  - intros d j. rewrite length_insert.
    intros [Hy | [=]%list_elem_of_singleton]%elem_of_app.
    apply Hrest in Hy as [Hy _]. by apply (inv_rotate_range _ HI) in Hy.
  - intros d j c'. rewrite length_insert.
    intros [Hr | [= _ -> _]%list_elem_of_singleton]%elem_of_app; [|done].
    by apply (inv_restart_range _ HI) in Hr.
  - intros d o [Hy | [= -> ->]%list_elem_of_singleton]%elem_of_app.
    + apply elem_of_app. left. apply (inv_pending _ HI). by apply Hrest.
    + apply elem_of_app. right. by apply list_elem_of_singleton.
  - intros j hj o Hj Ho.
    destruct (lookup_updated _ _ _ _ _ _ Hk Hat Hby Hj)
      as (hj0 & Hj0 & Hat0 & Hby0 & _).
    rewrite Hby0 in Ho. destruct (inv_opened _ HI _ _ _ Hj0 Ho) as [Hr Hno].
    split.
    + apply elem_of_app. left. by rewrite Hat0.
    + rewrite fmap_app, not_elem_of_app. split; [by apply Hgone|].
      intros [= ->]%list_elem_of_singleton. by apply Hfresh in Hr.
  - intros d o [Hr | [= -> ->]%list_elem_of_singleton]%elem_of_app.
    + destruct (inv_issued _ HI _ _ Hr) as [Hy | (j & hj & Hj & Ho & Hd)].
      * left. apply elem_of_app. left. by apply Hall in Hy as [Hy | [=]].
      * right.
        destruct (lookup_update_keeps _ _ _ _ _ _ Hk Hat Hby Hj)
          as (hj' & Hj' & Hat' & Hby').
        exists j, hj'. split_and!; [done | congruence | congruence].
    + left. apply elem_of_app. right. by apply list_elem_of_singleton.
  - intros j hj Hj.
    destruct (lookup_updated _ _ _ _ _ _ Hk Hat Hby Hj)
      as (hj0 & Hj0 & _ & _ & Hother & Hsame).
    destruct (decide (j = k)) as [->|Hne]; [by rewrite (Hsame eq_refl)|].
    rewrite (Hother Hne).
    eapply handle_ok_frame; [by apply (inv_handles _ HI) | simpl..].
    + done.
    + intros Hy. apply elem_of_app. left.
      apply Hall in Hy as [Hy | [= _ ->]]; done.
    + intros Hno. rewrite fmap_app, not_elem_of_app.
      split; [by apply Hgone | by intros ?%list_elem_of_singleton].
    + rewrite (restarts_for_snoc j s' (restarts s) _ eq_refl). simpl.
      rewrite decide_False by done. by rewrite app_nil_r.
Qed.

(** A step that only moves the clock and gives handle [k] a new state. *)
Lemma Inv_quiet s k h h' t :
  Inv s → handles s !! k = Some h →
  opened_at h' = opened_at h → opened_by h' = opened_by h →
  now s ≤ t →
  (∀ y, y ∈ timers s → t ≤ fst y) →
  let s' := {| now := t; timers := timers s;
               handles := <[k := h']> (handles s);
               restarts := restarts s |} in
  handle_ok s' k h' →
  Inv s'.
Proof.
  intros HI Hk Hat Hby Hnow Hmin s' Hok.
  constructor; simpl.
  - intros d task Hy. by apply Hmin in Hy.
  - apply (inv_tasks _ HI).
  - intros d j. rewrite length_insert. apply (inv_rotate_range _ HI).
  - intros d j c. rewrite length_insert. apply (inv_restart_range _ HI).
  - apply (inv_pending _ HI).
  - intros j hj o Hj Ho.
    destruct (lookup_updated _ _ _ _ _ _ Hk Hat Hby Hj)
      as (hj0 & Hj0 & Hat0 & Hby0 & _).
    rewrite Hby0 in Ho. rewrite Hat0. by apply (inv_opened _ HI _ _ _ Hj0).
  - intros d o Hr.
    destruct (inv_issued _ HI _ _ Hr) as [Hy | (j & hj & Hj & Ho & Hd)]; [by left|].
    right.
    destruct (lookup_update_keeps _ _ _ _ _ _ Hk Hat Hby Hj)
      as (hj' & Hj' & Hat' & Hby').
    exists j, hj'. split_and!; [done | congruence | congruence].
  - intros j hj Hj.
    destruct (lookup_updated _ _ _ _ _ _ Hk Hat Hby Hj)
      as (hj0 & Hj0 & _ & _ & Hother & Hsame).
    destruct (decide (j = k)) as [->|Hne]; [by rewrite (Hsame eq_refl)|].
    rewrite (Hother Hne).
    by eapply handle_ok_frame; [by apply (inv_handles _ HI) | simpl..].
Qed.

(** A rotation timer fires. *)
Lemma Inv_rotate s d k rest :
  Inv s → pop_earliest (timers s) = Some ((d, Rotate k), rest) →
  Inv (rotate k {| now := d; timers := rest;
                   handles := handles s; restarts := restarts s |}).
Proof.
  intros HI Hpop.
  destruct (pop_facts _ _ _ HI Hpop) as (Hx & Hin & Hnow & Hmin & Hnot & Hnd).
  simpl in *.
  pose proof (inv_rotate_range _ HI _ _ Hx) as Hlt.
  destruct (lookup_lt_is_Some_2 _ _ Hlt) as [h Hk].
  destruct (rotation_pending _ _ _ _ HI Hk Hx) as (Hd & Hfresh & Hsum).
  destruct (inv_handles _ HI _ _ Hk) as [Hopen _].
  erewrite rotate_eq by exact Hk. simpl.
  eapply (Inv_restart s k h _ ByRotation d rest); try done.
  - intros y Hy. split; [apply Hin; by right | by apply Hmin].
  - intros y Hy. apply Hin in Hy as [->|]; auto.
  - unfold handle_ok. simpl. split; [lia|].
    assert (Rotate k ∉ (rest ++ [(d + delay ByRotation, PullLoop (k, ByRotation))]).*2)
      as Hgone.
    { rewrite fmap_app, not_elem_of_app.
      split; [done | by intros ?%list_elem_of_singleton]. }
    destruct Hsum as [(-> & Hc & Hrf) | (t & c & -> & Hc & Hcl & Hle & Htn & Hrf)].
    + split_and!; [apply sub_unsubscribe_closed | done | lia | done |].
      erewrite restarts_for_snoc by done. simpl. fold (restarts_for k s).
      rewrite Hrf, decide_True by done. simpl.
      unfold rotation_restart. simpl. by rewrite Hd.
    + assert (restarts_for k
                {| now := d;
                   timers := rest ++ [(d + delay ByRotation, PullLoop (k, ByRotation))];
                   handles := <[k := {| opened_at := opened_at h;
                                        opened_by := opened_by h;
                                        sub := sub_unsubscribe (sub h);
                                        ended := Some (t, c) |}]> (handles s);
                   restarts := restarts s ++ [(d + delay ByRotation, (k, ByRotation))] |}
              = [(t + delay c, (k, c));
                 (opened_at h + autoRebootInterval + autoRebootHangTime, (k, ByRotation))])
        as Hrf'.
      { erewrite restarts_for_snoc by done. simpl. fold (restarts_for k s).
        rewrite Hrf, decide_True by done. simpl. by rewrite Hd. }
      destruct c; [| |done];
        (split_and!; [apply sub_unsubscribe_closed | done | lia |];
         right; split_and!; [done | lia | exact Hrf']).
Qed.

Lemma restarts_finish k c s : restarts (finish k c s) = restarts s.
Proof. unfold finish. by destruct (handles s !! k). Qed.

Lemma restarts_cancel k s : restarts (cancel k s) = restarts s.
Proof. unfold cancel. by destruct (handles s !! k). Qed.

Lemma signalled_eq s k h h' c :
  handles s !! k = Some h →
  restart k c (finish k c (set_handle k h' s))
  = {| now := now s;
       timers := timers s ++ [(now s + delay c, PullLoop (k, c))];
       handles := <[k := {| opened_at := opened_at h'; opened_by := opened_by h';
                            sub := sub h';
                            ended := match ended h' with
                                     | Some x => Some x
                                     | None => Some (now s, c)
                                     end |}]> (handles s);
       restarts := restarts s ++ [(now s + delay c, (k, c))] |}.
Proof.
  intros Hk. pose proof (lookup_lt_Some _ _ _ Hk) as Hlt.
  unfold finish, set_handle. simpl.
  rewrite list_lookup_insert_eq by done. simpl.
  unfold restart, setTimeout. simpl. by rewrite list_insert_insert_eq.
Qed.

Section WithEnv.
Context `{Env}.

(** A socket event runs. *)
Lemma Inv_socket s t k e s' :
  Inv s → step (Socket t k e) s = Some s' → Inv s'.
Proof.
  intros HI. unfold step.
  destruct (bool_decide (now s ≤ t) && _) eqn:Hguard; [|done].
  apply andb_true_iff in Hguard as [Hnow%bool_decide_eq_true Hmin].
  assert (∀ y, y ∈ timers s → t ≤ fst y) as Hmin'.
  { intros y Hy%list_elem_of_In. rewrite forallb_forall in Hmin.
    apply Hmin in Hy. lia. }
  unfold socket. simpl.
  destruct (handles s !! k) as [h|] eqn:Hk; [|done].
  destruct (on e (sub h)) as [sub'|] eqn:Hon; [|done].
  intros [= <-].
  destruct (on_effect _ _ _ Hon) as [_ Heff].
  destruct (inv_handles _ HI _ _ Hk) as [Hopen Hcase].
  destruct (closed (sub h)) eqn:Hcl.
  - destruct Heff as [Hcl' ->]. simpl. unfold set_handle. simpl.
    eapply (Inv_quiet s k h); try done.
    unfold handle_ok. simpl. split; [lia|].
    destruct (ended h) as [[te []]|].
    + destruct Hcase as (? & ? & ? & [[? ?]|(? & ? & ?)]);
        (split_and!; [done | lia | lia |]); [left | right]; split_and!; (done || lia).
    + destruct Hcase as (? & ? & ? & [[? ?]|(? & ? & ?)]);
        (split_and!; [done | lia | lia |]); [left | right]; split_and!; (done || lia).
    + destruct Hcase as (? & ? & ? & ? & ?). split_and!; (done || lia).
    + destruct Hcase as (? & ? & ?). congruence.
  - assert (ended h = None) as Hend.
    { destruct (ended h) as [[te []]|]; [| | |done];
        destruct Hcase as (? & _); congruence. }
    rewrite Hend in Hcase. destruct Hcase as (_ & Hrot & Hrf).
    destruct Heff as [[Hcl' Hnews] | [Hcl' (n & -> & Hn)]].
    + assert (foldl (callback k)
                (set_handle k {| opened_at := opened_at h; opened_by := opened_by h;
                                 sub := sub'; ended := ended h |}
                   {| now := t; timers := timers s; handles := handles s;
                      restarts := restarts s |}) (news (sub h) sub')
              = {| now := t; timers := timers s;
                   handles := <[k := {| opened_at := opened_at h;
                                        opened_by := opened_by h;
                                        sub := sub'; ended := ended h |}]> (handles s);
                   restarts := restarts s |}) as ->.
      { by destruct Hnews as [-> | [ev ->]]. }
      eapply (Inv_quiet s k h); try done.
      unfold handle_ok. simpl. rewrite Hend. split; [lia|]. by split_and!.
    + assert (∃ c, (c = ByError ∨ c = ByComplete)
                   ∧ ∀ s0, callback k s0 n = restart k c (finish k c s0))
        as (c & Hc & Hcb).
      { destruct n as [ev|m|]; [done | exists ByError | exists ByComplete]; auto. }
      simpl. rewrite Hcb. erewrite signalled_eq by exact Hk. simpl. rewrite Hend.
      eapply (Inv_restart s k h _ c t (timers s)); try done.
      * auto.
      * auto.
      * apply (inv_tasks _ HI).
      * intros d Hr.
        assert ((d, (k, c)) ∈ restarts_for k s) as Hf by by apply restarts_for_elem.
        rewrite Hrf in Hf. by apply elem_of_nil in Hf.
      * unfold handle_ok. simpl. split; [lia|].
        assert (restarts_for k
                  {| now := t;
                     timers := timers s ++ [(t + delay c, PullLoop (k, c))];
                     handles := <[k := {| opened_at := opened_at h;
                                          opened_by := opened_by h; sub := sub';
                                          ended := Some (t, c) |}]> (handles s);
                     restarts := restarts s ++ [(t + delay c, (k, c))] |}
                = [(t + delay c, (k, c))]) as Hrf'.
        { erewrite restarts_for_snoc by done. simpl. fold (restarts_for k s).
          by rewrite Hrf, decide_True. }
        destruct Hc as [-> | ->];
          (split_and!; [done | lia | lia |]; left; split; [|exact Hrf']);
          apply elem_of_app; by left.
Qed.

(** The two shapes of a socket step: a quiet one, which only replaces
    the subscription of the handle, and a terminal one, which ends the
    handle and issues its restart. *)
Lemma socket_cases k e s0 s' :
  socket k e s0 = Some s' →
  ∃ h sub', handles s0 !! k = Some h ∧ on e (sub h) = Return sub'
    ∧ ((terminal <$> news (sub h) sub' = (fun _ => false) <$> news (sub h) sub'
        ∧ closed sub' = closed (sub h)
        ∧ (closed (sub h) = true → delivered sub' = delivered (sub h))
        ∧ s' = set_handle k {| opened_at := opened_at h; opened_by := opened_by h;
                               sub := sub'; ended := ended h |} s0)
       ∨ ∃ n c, news (sub h) sub' = [n] ∧ cause_of n = Some c ∧ c ≠ ByRotation
                ∧ closed (sub h) = false ∧ closed sub' = true
                ∧ s' = {| now := now s0;
                          timers := timers s0 ++ [(now s0 + delay c, PullLoop (k, c))];
                          handles :=
                            <[k := {| opened_at := opened_at h;
                                      opened_by := opened_by h; sub := sub';
                                      ended := match ended h with
                                               | Some x => Some x
                                               | None => Some (now s0, c)
                                               end |}]> (handles s0);
                          restarts := restarts s0 ++ [(now s0 + delay c, (k, c))] |}).
Proof.
  unfold socket. destruct (handles s0 !! k) as [h|] eqn:Hk; [|done].
  destruct (on e (sub h)) as [sub'|] eqn:Hon; [|done].
  intros [= <-]. exists h, sub'. split_and!; [done..|].
  destruct (on_effect _ _ _ Hon) as [Hd Heff].
  destruct (closed (sub h)) eqn:Hcl.
  - destruct Heff as [Hcl' Hnews]. left. rewrite Hnews in *.
    rewrite app_nil_r in Hd. by split_and!.
  - destruct Heff as [[Hcl' Hnews] | [Hcl' (n & Hnews & Hn)]].
    + left. split_and!; [|done|done|].
      * by destruct Hnews as [-> | [ev ->]].
      * by destruct Hnews as [-> | [ev ->]].
    + right. rewrite Hnews.
      destruct n as [ev|m|]; [done | exists (Error m), ByError | exists Complete, ByComplete];
        (split_and!; [done..|]); simpl; by erewrite signalled_eq by exact Hk.
Qed.

(** What a step keeps of a handle: when and by what it was opened, its
    end once it has one, and, once the subscription is closed, what it
    has delivered. *)
Lemma step_stable ev s s' k h :
  step ev s = Some s' → handles s !! k = Some h →
  ∃ h', handles s' !! k = Some h'
        ∧ opened_at h' = opened_at h ∧ opened_by h' = opened_by h
        ∧ (∀ x, ended h = Some x → ended h' = Some x)
        ∧ (closed (sub h) = true →
           closed (sub h') = true ∧ delivered (sub h') = delivered (sub h)).
Proof.
  intros Hstep Hk. pose proof (lookup_lt_Some _ _ _ Hk) as Hlt.
  destruct ev as [|t j e]; simpl in Hstep.
  - destruct (pop_earliest (timers s)) as [[[d task] rest]|]; [|done].
    injection Hstep as <-. destruct task as [o|j]; simpl.
    + exists h. split_and!; try done. by apply lookup_app_l_Some.
    + unfold rotate, finish, cancel, set_handle. simpl.
      destruct (handles s !! j) as [hj|] eqn:Hj; simpl.
      * rewrite list_lookup_insert_eq by by eapply lookup_lt_Some. simpl.
        rewrite list_insert_insert_eq.
        destruct (decide (j = k)) as [->|Hne].
        -- rewrite list_lookup_insert_eq by done. simplify_eq.
           eexists. split_and!; [done..| |]; simpl.
           ++ by intros x ->.
           ++ intros _. by rewrite sub_unsubscribe_closed, sub_unsubscribe_delivered.
        -- rewrite list_lookup_insert_ne by done. exists h. by split_and!.
      * rewrite Hj. simpl. exists h. by split_and!.
  - destruct (bool_decide (now s ≤ t) && _); [|done].
    apply socket_cases in Hstep as (hj & sub' & Hj & Hon & Hcases). simpl in *.
    destruct (decide (j = k)) as [->|Hne].
    + simplify_eq.
      destruct Hcases as [(_ & Hcl & Hd & ->) | (n & c & _ & _ & _ & Hcl & _ & ->)]; simpl.
      * rewrite list_lookup_insert_eq by done. eexists.
        split_and!; [done..|]. simpl. intros Hc. rewrite Hcl. auto.
      * rewrite list_lookup_insert_eq by done. eexists.
        split_and!; [done..| |]; simpl; [by intros x -> | congruence].
    + destruct Hcases as [(_ & _ & _ & ->) | (n & c & _ & _ & _ & _ & _ & ->)]; simpl;
        rewrite list_lookup_insert_ne by done; exists h; by split_and!.
Qed.

Lemma exec_stable evs s s' k h :
  exec evs s = Some s' → handles s !! k = Some h →
  ∃ h', handles s' !! k = Some h'
        ∧ opened_at h' = opened_at h ∧ opened_by h' = opened_by h
        ∧ (∀ x, ended h = Some x → ended h' = Some x)
        ∧ (closed (sub h) = true →
           closed (sub h') = true ∧ delivered (sub h') = delivered (sub h)).
Proof.
  revert s h. induction evs as [|ev evs IH]; intros s h; simpl.
  - intros [= <-] Hk. exists h. by split_and!.
  - destruct (step ev s) as [s1|] eqn:Hstep; [|done].
    intros Hexec Hk.
    destruct (step_stable _ _ _ _ _ Hstep Hk) as (h1 & Hk1 & Hat1 & Hby1 & He1 & Hc1).
    destruct (IH _ _ Hexec Hk1) as (h' & Hk' & Hat' & Hby' & He' & Hc').
    exists h'. split_and!; [done | congruence | congruence | auto |].
    intros Hc. destruct (Hc1 Hc) as [Hc1' Hd1]. destruct (Hc' Hc1') as [? Hd'].
    split; [done | congruence].
Qed.

Lemma Inv_step ev s s' : Inv s → step ev s = Some s' → Inv s'.
Proof.
  intros HI. destruct ev as [|t k e]; [|by apply Inv_socket].
  simpl. destruct (pop_earliest (timers s)) as [[[d task] rest]|] eqn:Hpop; [|done].
  intros [= <-]. destruct task as [o|k]; simpl.
  - by apply Inv_pullLoop.
  - by apply Inv_rotate.
Qed.

Lemma Inv_exec evs s s' : Inv s → exec evs s = Some s' → Inv s'.
Proof.
  revert s. induction evs as [|ev evs IH]; intros s HI; simpl.
  - by intros [= <-].
  - destruct (step ev s) as [s1|] eqn:Hstep; [|done].
    apply IH. by eapply Inv_step.
Qed.

Lemma Inv_reachable s : reachable s → Inv s.
Proof. intros (t & evs & Hexec). eapply Inv_exec; [apply Inv_boot | done]. Qed.

Lemma signalled_restarts_snoc k s rs d j c :
  restarts s = rs ++ [(d, (j, c))] → (j ≠ k ∨ c = ByRotation) →
  signalled_restarts k s
  = filter (fun r => fst (snd r) = k ∧ snd (snd r) ≠ ByRotation) rs.
Proof.
  unfold signalled_restarts. intros -> Hor.
  rewrite filter_app, filter_cons, filter_nil. simpl.
  rewrite decide_False, app_nil_r; [done|].
  intros [-> Hc]. destruct Hor; congruence.
Qed.

(** Once the subscription of a handle is closed, no step makes it
    deliver, and no step adds a restart issued by one of its signals. *)
Lemma exec_closed evs s s' k h :
  exec evs s = Some s' → handles s !! k = Some h → closed (sub h) = true →
  ∃ h', handles s' !! k = Some h'
        ∧ closed (sub h') = true
        ∧ delivered (sub h') = delivered (sub h)
        ∧ signalled_restarts k s' = signalled_restarts k s.
Proof.
  revert s h. induction evs as [|ev evs IH]; intros s h; simpl.
  - intros [= <-] Hk Hc. exists h. by split_and!.
  - destruct (step ev s) as [s1|] eqn:Hstep; [|done].
    intros Hexec Hk Hc.
    destruct (step_stable _ _ _ _ _ Hstep Hk) as (h1 & Hk1 & _ & _ & _ & Hc1).
    destruct (Hc1 Hc) as [Hcl1 Hd1].
    destruct (IH _ _ Hexec Hk1 Hcl1) as (h' & Hk' & Hcl' & Hd' & Hr').
    exists h'. split_and!; [done | done | congruence |].
    rewrite Hr'. clear IH Hexec Hk' Hcl' Hd' Hr'.
    destruct ev as [|t j e]; simpl in Hstep.
    + destruct (pop_earliest (timers s)) as [[[d task] rest]|]; [|done].
      injection Hstep as <-. destruct task as [o|j]; simpl; [done|].
      erewrite signalled_restarts_snoc; [|simpl; reflexivity|by right].
      by rewrite restarts_cancel, restarts_finish.
    + destruct (bool_decide (now s ≤ t) && _); [|done].
      apply socket_cases in Hstep as (hj & sub' & Hj & Hon & Hcases). simpl in *.
      destruct Hcases as [(_ & _ & _ & ->) | (n & c & _ & _ & _ & Hcl & _ & ->)];
        simpl; [done|].
      erewrite signalled_restarts_snoc; [done | simpl; reflexivity |].
      left. intros ->. congruence.
Qed.

(** C9: [sub.unsubscribe()] on a handle a second time changes nothing,
    and once it has been called, whatever the event loop runs next (the
    frames and the close of that socket among it), the handle delivers
    nothing more to the sink, to the error callback or to the completion
    callback, and no signal of it issues a restart. *)
Theorem cancel_idempotent_and_silent s k h :
  handles s !! k = Some h →
  cancel k (cancel k s) = cancel k s
  ∧ ∀ evs s', exec evs (cancel k s) = Some s' →
      ∃ h', handles s' !! k = Some h'
            ∧ delivered (sub h') = delivered (sub h)
            ∧ signalled_restarts k s' = signalled_restarts k s.
Proof.
  intros Hk. pose proof (lookup_lt_Some _ _ _ Hk) as Hlt.
  assert (handles (cancel k s) !! k
          = Some {| opened_at := opened_at h; opened_by := opened_by h;
                    sub := sub_unsubscribe (sub h); ended := ended h |}) as Hk1.
  { unfold cancel. rewrite Hk. simpl. by rewrite list_lookup_insert_eq. }
  split.
  - unfold cancel at 1. rewrite Hk1. simpl.
    rewrite sub_unsubscribe_idempotent. unfold cancel, set_handle. rewrite Hk. simpl.
    by rewrite list_insert_insert_eq.
  - intros evs s' Hexec.
    destruct (exec_closed _ _ _ _ _ Hexec Hk1) as (h' & Hk' & _ & Hd & Hr).
    { apply sub_unsubscribe_closed. }
    exists h'. split_and!; [done | |].
    + simpl in Hd. by rewrite Hd, sub_unsubscribe_delivered.
    + rewrite Hr. unfold cancel. by rewrite Hk.
Qed.

(** What the invariant says of a restart on record: the handle it
    opens is opened when the restart is due, neither before nor after. *)
Lemma restart_facts s d o :
  Inv s → (d, o) ∈ restarts s → (∀ d', (d', o) ∈ restarts s → d' = d) →
  (∀ j h', handles s !! j = Some h' → opened_by h' = Some o → opened_at h' = d)
  ∧ (now s < d →
     (d, PullLoop o) ∈ timers s
     ∧ ∀ j h', handles s !! j = Some h' → opened_by h' ≠ Some o)
  ∧ (d < now s →
     ∃ j h', handles s !! j = Some h' ∧ opened_by h' = Some o ∧ opened_at h' = d).
Proof.
  intros HI Hr Honly. split_and!.
  - intros j h' Hj Ho. apply Honly. by apply (inv_opened _ HI _ _ _ Hj Ho).
  - intros Hlt.
    assert ((d, PullLoop o) ∈ timers s) as Hpend.
    { destruct (inv_issued _ HI _ _ Hr) as [Hy | (j & h' & Hj & Ho & Hd)]; [done|].
      destruct (inv_handles _ HI _ _ Hj) as [Hopen _]. lia. }
    split; [done|]. intros j h' Hj Ho.
    destruct (inv_opened _ HI _ _ _ Hj Ho) as [_ Hno].
    apply Hno, task_elem. eauto.
  - intros Hlt.
    destruct (inv_issued _ HI _ _ Hr) as [Hy | (j & h' & Hj & Ho & Hd)]; [|eauto].
    apply (inv_time _ HI) in Hy. lia.
Qed.

Lemma signal_restart_on_record s k h t c :
  Inv s → handles s !! k = Some h → ended h = Some (t, c) → c ≠ ByRotation →
  (t + delay c, (k, c)) ∈ restarts s
  ∧ ∀ d, (d, (k, c)) ∈ restarts s → d = t + delay c.
Proof.
  intros HI Hk Hend Hc.
  destruct (inv_handles _ HI _ _ Hk) as [_ Hcase]. rewrite Hend in Hcase.
  assert (restarts_for k s = [(t + delay c, (k, c))]
          ∨ restarts_for k s = [(t + delay c, (k, c)); rotation_restart k h]) as Hrf.
  { destruct c; [| |done]; destruct Hcase as (_ & _ & _ & [[_ ?]|(_ & _ & ?)]); auto. }
  split.
  - apply (restarts_for_elem k). destruct Hrf as [-> | ->]; by left.
  - intros d Hd. assert ((d, (k, c)) ∈ restarts_for k s) as Hin
      by by apply restarts_for_elem.
    destruct Hrf as [Hrf | Hrf]; rewrite Hrf in Hin.
    + apply list_elem_of_singleton in Hin. congruence.
    + apply elem_of_cons in Hin as [Hin | Hin]; [congruence|].
      apply list_elem_of_singleton in Hin. unfold rotation_restart in Hin. congruence.
Qed.

Lemma now_run_task task s : now (run_task task s) = now s.
Proof.
  destruct task as [o|k]; simpl; [done|].
  unfold rotate, restart, setTimeout. simpl.
  assert (∀ s0, now (cancel k s0) = now s0) as ->
    by (intros s0; unfold cancel; by destruct (handles s0 !! k)).
  unfold finish. by destruct (handles s !! k).
Qed.

Lemma step_now ev s s' : Inv s → step ev s = Some s' → now s ≤ now s'.
Proof.
  intros HI. destruct ev as [|t k e]; simpl.
  - destruct (pop_earliest (timers s)) as [[[d task] rest]|] eqn:Hpop; [|done].
    intros [= <-]. rewrite now_run_task. simpl.
    by destruct (pop_facts _ _ _ HI Hpop) as (_ & _ & ? & _).
  - destruct (bool_decide (now s ≤ t) && _) eqn:Hguard; [|done].
    apply andb_true_iff in Hguard as [Hnow%bool_decide_eq_true _].
    intros (h & sub' & _ & _ & [(_ & _ & _ & ->) | (n & c & _ & _ & _ & _ & _ & ->)])%socket_cases;
      done.
Qed.

Lemma exec_now evs s s' : Inv s → exec evs s = Some s' → now s ≤ now s'.
Proof.
  revert s. induction evs as [|ev evs IH]; intros s HI; simpl.
  - by intros [= <-].
  - destruct (step ev s) as [s1|] eqn:Hstep; [|done]. intros Hexec.
    pose proof (step_now _ _ _ HI Hstep).
    pose proof (IH _ (Inv_step _ _ _ HI Hstep) Hexec). lia.
Qed.

(** While every subscription is closed and no timer is due before [d], no
    handle is opened before [d]. *)
Lemma quiet_until d evs s s' :
  Inv s → nothing_due_before d s →
  (∀ j h, handles s !! j = Some h → closed (sub h) = true) →
  exec evs s = Some s' → now s' < d →
  length (handles s') = length (handles s).
Proof.
  revert s. induction evs as [|ev evs IH]; intros s HI Hdue Hclosed; simpl.
  - by intros [= <-].
  - destruct (step ev s) as [s1|] eqn:Hstep; [|done]. intros Hexec Hlt.
    pose proof (Inv_step _ _ _ HI Hstep) as HI1.
    pose proof (exec_now _ _ _ HI1 Hexec) as Hmono.
    destruct ev as [|t k e]; simpl in Hstep.
    + destruct (pop_earliest (timers s)) as [[[due task] rest]|] eqn:Hpop; [|done].
      injection Hstep as <-. rewrite now_run_task in Hmono. simpl in Hmono.
      destruct (pop_facts _ _ _ HI Hpop) as (Hx & _).
      apply Hdue in Hx. simpl in Hx. lia.
    + destruct (bool_decide (now s ≤ t) && _); [|done].
      apply socket_cases in Hstep as (h & sub' & Hk & _ & Hcases). simpl in *.
      destruct Hcases as [(_ & Hcl & _ & ->) | (n & c & _ & _ & _ & Hcl & _)].
      * rewrite (IH _ HI1 Hdue); [simpl; by rewrite length_insert | | done | done].
        intros j hj [(-> & <- & _) | [_ Hj]]%list_lookup_insert_Some; simpl.
        -- rewrite Hcl. by eapply Hclosed.
        -- by eapply Hclosed.
      * rewrite (Hclosed _ _ Hk) in Hcl. done.
Qed.

(** The restart that a signal issues: when a socket event at [t] makes a
    handle deliver the error signal, or the completion signal, the loop
    is restarted by a timer
    due at [t] plus the delay of that signal, 60 s for an error and 30 s
    for a completion.  No handle is opened by the step itself; whatever
    runs afterwards, the handle that this restart opens is opened at that
    time exactly: before it the timer is pending and the handle is not
    there, after it the handle is there.  When the handle was the only live
    one and no timer was due before that time, no handle at all is opened
    before it. *)
Theorem restart_after_signal s t k e n c s1 :
  reachable s →
  signals k e s = [n] → cause_of n = Some c →
  step (Socket t k e) s = Some s1 →
  delay c = (if decide (c = ByError) then 60000 else 30000)
  ∧ (t + delay c, PullLoop (k, c)) ∈ timers s1
  ∧ length (handles s1) = length (handles s)
  ∧ ∀ evs s2, exec evs s1 = Some s2 →
      (∀ j h', handles s2 !! j = Some h' → opened_by h' = Some (k, c) →
               opened_at h' = t + delay c)
      ∧ (now s2 < t + delay c →
         (t + delay c, PullLoop (k, c)) ∈ timers s2
         ∧ ∀ j h', handles s2 !! j = Some h' → opened_by h' ≠ Some (k, c))
      ∧ (t + delay c < now s2 →
         ∃ j h', handles s2 !! j = Some h' ∧ opened_by h' = Some (k, c)
                 ∧ opened_at h' = t + delay c)
      ∧ (alone k s → nothing_due_before (t + delay c) s →
         now s2 < t + delay c → length (handles s2) = length (handles s)).
Proof.
  intros Hreach Hsig Hc Hstep.
  pose proof (Inv_reachable _ Hreach) as HI.
  pose proof (Inv_step _ _ _ HI Hstep) as HI1.
  assert (c ≠ ByRotation) as Hne by (destruct n; simpl in *; congruence).
  simpl in Hstep. destruct (bool_decide (now s ≤ t) && _); [|done].
  apply socket_cases in Hstep as (h & sub' & Hk & Hon & Hcases). simpl in *.
  unfold signals in Hsig. rewrite Hk, Hon in Hsig.
  destruct Hcases as [(Hquiet & _) | (n' & c' & Hnews & Hc' & _ & Hcl & Hcl' & ->)].
  { rewrite Hsig in Hquiet. destruct n; simpl in *; congruence. }
  rewrite Hsig in Hnews. simplify_eq.
  destruct (inv_handles _ HI _ _ Hk) as [_ Hcase].
  assert (ended h = None) as Hend.
  { destruct (ended h) as [[te []]|]; [| | |done];
      destruct Hcase as (? & _); congruence. }
  rewrite Hend in *. simpl.
  split_and!.
  - destruct n'; simpl in *; simplify_eq; done.
  - apply elem_of_app. right. by apply list_elem_of_singleton.
  - by rewrite length_insert.
  - intros evs s2 Hexec.
    pose proof (Inv_exec _ _ _ HI1 Hexec) as HI2.
    edestruct (exec_stable evs) as (h2 & Hk2 & _ & _ & Hend2 & _); [exact Hexec | |].
    { simpl. apply list_lookup_insert_eq. by eapply lookup_lt_Some. }
    simpl in Hend2. specialize (Hend2 _ eq_refl).
    destruct (signal_restart_on_record _ _ _ _ _ HI2 Hk2 Hend2 Hne) as [Hr Honly].
    destruct (restart_facts _ _ _ HI2 Hr Honly) as (? & ? & ?).
    split_and!; [done..|].
    intros Halone Hdue Hlt.
    rewrite (quiet_until (t + delay c) evs _ s2 HI1);
      [simpl; by rewrite length_insert | | | exact Hexec | exact Hlt].
    + intros y [Hy | ->%list_elem_of_singleton]%elem_of_app; [by apply Hdue | simpl; lia].
    + intros j hj [(-> & <- & _) | [Hne' Hj]]%list_lookup_insert_Some; [done|].
      by eapply Halone.
Qed.

Lemma signals_closed s k h e :
  handles s !! k = Some h → closed (sub h) = true → signals k e s = [].
Proof.
  intros Hk Hc. unfold signals. rewrite Hk.
  destruct (on e (sub h)) as [sub'|] eqn:Hon; [|done].
  destruct (on_effect _ _ _ Hon) as [_ Heff]. rewrite Hc in Heff. by destruct Heff.
Qed.

(** C2: a handle opened at [t0] that neither the error signal nor the
    completion signal has ended is live, with its rotation timer
    pending, as long as the clock is before [t0] plus the rotation
    interval of 4 h, and is ended by the rotation, at that time exactly,
    once the clock is past it.  From then on no socket event of the
    handle gives a signal, the restarts issued for the handle are the
    one restart of the rotation, due 10 s later, and the handle which
    that restart opens is opened at that time exactly. *)
Theorem forced_rotation s k h :
  reachable s → handles s !! k = Some h →
  (∀ t c, ended h = Some (t, c) → c = ByRotation) →
  let due := opened_at h + autoRebootInterval in
  let reopen := due + autoRebootHangTime in
  autoRebootInterval = 14400000 ∧ autoRebootHangTime = 10000
  ∧ (now s < due →
     ended h = None ∧ closed (sub h) = false ∧ (due, Rotate k) ∈ timers s)
  ∧ (due < now s → ended h = Some (due, ByRotation))
  ∧ (ended h ≠ None →
     ended h = Some (due, ByRotation)
     ∧ closed (sub h) = true
     ∧ (∀ e, signals k e s = [])
     ∧ restarts_for k s = [(reopen, (k, ByRotation))]
     ∧ (∀ j h', handles s !! j = Some h' → opened_by h' = Some (k, ByRotation) →
                opened_at h' = reopen)
     ∧ (now s < reopen →
        (reopen, PullLoop (k, ByRotation)) ∈ timers s
        ∧ ∀ j h', handles s !! j = Some h' → opened_by h' ≠ Some (k, ByRotation))
     ∧ (reopen < now s →
        ∃ j h', handles s !! j = Some h' ∧ opened_by h' = Some (k, ByRotation)
                ∧ opened_at h' = reopen)).
Proof.
  intros Hreach Hk Hnosig due reopen.
  pose proof (Inv_reachable _ Hreach) as HI.
  destruct (inv_handles _ HI _ _ Hk) as [Hopen Hcase].
  split; [done|]. split; [done|].
  destruct (ended h) as [[t c]|] eqn:Hend.
  - rewrite (Hnosig _ _ eq_refl) in *.
    destruct Hcase as (Hcl & -> & Hle & Hgone & Hrf). fold due in Hle.
    split_and!; [lia | done |]. intros _.
    assert ((reopen, (k, ByRotation)) ∈ restarts s
            ∧ ∀ d, (d, (k, ByRotation)) ∈ restarts s → d = reopen) as [Hr Honly].
    { split.
      - apply (restarts_for_elem k). rewrite Hrf. by left.
      - intros d Hd. assert ((d, (k, ByRotation)) ∈ restarts_for k s) as Hin
          by by apply restarts_for_elem.
        rewrite Hrf in Hin. apply list_elem_of_singleton in Hin.
        unfold rotation_restart in Hin. by injection Hin as ->. }
    split_and!; [done | done | | done | by apply restart_facts..].
    intros e. by eapply signals_closed.
  - destruct Hcase as (Hcl & Hrot & Hrf).
    split_and!; [done | | done].
    intros Hlt. apply (inv_time _ HI) in Hrot. simpl in Hrot. unfold due in Hlt. lia.
Qed.

End WithEnv.

End SyncFacts.

(** ** The specification on the sample data *)
Module Examples.
Import Utils Codec Js Rx Provider Sync CodecFacts ProviderFacts SyncFacts.

Lemma decode_rejects_witness :
  symbolToPairExchange (H := Demo.env) "KRAKEN_MARGIN_BTC_USD" = None
  ∧ symbolToPairExchange (H := Demo.env) "KRAKEN_SPOT_BTC_EUR" = None.
Proof.
  split; apply (decode_rejects (H := Demo.env)).
  - left. vm_compute. discriminate.
  - right. exists "EUR"%string. split; [|vm_compute; reflexivity].
    unfold assets. simpl. apply elem_of_cons. right. apply elem_of_cons. by left.
Defined.

Lemma decode_encode_witness :
  ∃ symbol pe,
    pairExchangeIdToSymbol Demo.btc_usd = Ok symbol
    ∧ pairExchangeFromId Demo.btc_usd = Ok pe
    ∧ symbolToPairExchange (H := Demo.env) symbol = Some pe
    ∧ pe_id pe = Demo.btc_usd.
Proof.
  apply (decode_encode (H := Demo.env) Demo.btc_usd). vm_compute. reflexivity.
Defined.

Lemma encode_with_separator_witness :
  pairExchangeIdToSymbol Demo.with_separator = EncodingError
  ∧ ∀ symbol, pairExchangeIdToSymbol Demo.with_separator ≠ Ok symbol.
Proof.
  apply (encode_with_separator Demo.with_separator). vm_compute. reflexivity.
Defined.

(** A connection lost without a closing handshake is delivered as the
    completion signal, and the error signal is not delivered. *)
Lemma transport_failure_completes :
  transport_failure (Closed 1006) = true
  ∧ on (H := Demo.env) (Closed 1006) fresh
    = Return {| closed := true; delivered := [Complete]; wire := [Close] |}.
Proof. split; reflexivity. Qed.

Lemma error_frame_errors_close_completes_witness :
  ∃ sub', on (H := Demo.env) (Message (Parses Demo.error_down)) fresh = Return sub'
          ∧ delivered sub' = [Error (Some (JStr "network down"))].
Proof.
  destruct (error_frame_errors_close_completes (H := Demo.env) fresh eq_refl)
    as [Herr _].
  destruct (Herr Demo.error_down eq_refl) as (sub' & Hon & Hd & _).
  exists sub'. split; [exact Hon | exact Hd].
Defined.

(** A frame of a type the specification does not name, with a symbol that
    decodes, is delivered to the sink. *)
Lemma unrecognized_frame_delivered :
  recognized Demo.quote = false
  ∧ on (H := Demo.env) (Message (Parses Demo.quote)) fresh
    = Return {| closed := false;
                delivered := [Next {| pairExchangeId := Demo.btc_usd; price := None |}];
                wire := [] |}.
Proof. split; reflexivity. Qed.

Lemma undecodable_frame_dropped_witness :
  on (H := Demo.env) (Message (Parses Demo.trade_margin)) fresh = Return fresh
  ∧ on (H := Demo.env) (Message (Parses (JNum 7))) fresh = Return fresh.
Proof.
  split; apply (undecodable_frame_dropped (H := Demo.env)).
  - right. split; [reflexivity|].
    exists "KRAKEN_MARGIN_BTC_USD"%string. split; reflexivity.
  - left. reflexivity.
Defined.

Lemma price_passed_verbatim_witness :
  on (H := Demo.env) (Message (Parses Demo.trade_without_price)) fresh
  = Return {| closed := false;
              delivered := [Next {| pairExchangeId := Demo.btc_usd; price := None |}];
              wire := [] |}
  ∧ on (H := Demo.env) (Message (Parses Demo.trade_text_price)) fresh
    = Return {| closed := false;
                delivered := [Next {| pairExchangeId := Demo.btc_usd;
                                      price := Some (JStr "n/a") |}];
                wire := [] |}.
Proof.
  split.
  - apply (price_passed_verbatim (H := Demo.env) fresh Demo.trade_without_price
             "KRAKEN_SPOT_BTC_USD" Sample.kraken_btc_usd); reflexivity.
  - apply (price_passed_verbatim (H := Demo.env) fresh Demo.trade_text_price
             "KRAKEN_SPOT_BTC_USD" Sample.kraken_btc_usd); reflexivity.
Defined.

Lemma cancel_idempotent_and_silent_witness :
  cancel 0 (cancel 0 (boot 0)) = cancel 0 (boot 0).
Proof.
  apply (cancel_idempotent_and_silent (H := Demo.env) (boot 0) 0
           {| opened_at := 0; opened_by := None; sub := fresh; ended := None |}).
  reflexivity.
Defined.

Lemma restart_after_signal_witness :
  (60000, PullLoop (0%nat, ByError)) ∈ timers Demo.errored
  ∧ ∀ evs s2, exec (H := Demo.env) evs Demo.errored = Some s2 →
      (now s2 < 60000 → length (handles s2) = 1%nat)
      ∧ (60000 < now s2 →
         ∃ j h', handles s2 !! j = Some h' ∧ opened_by h' = Some (0%nat, ByError)
                 ∧ opened_at h' = 60000).
Proof.
  destruct (restart_after_signal (H := Demo.env) (boot 0) 0 0%nat
              (Message (Parses Demo.error_down))
              (Error (Some (JStr "network down"))) ByError Demo.errored)
    as (_ & Hpending & _ & Hafter).
  - exists 0, []. reflexivity.
  - vm_compute. reflexivity.
  - reflexivity.
  - vm_compute. reflexivity.
  - split; [exact Hpending|]. intros evs s2 Hexec.
    destruct (Hafter evs s2 Hexec) as (_ & _ & Hopened & Hnone).
    split; [|exact Hopened].
    apply Hnone.
    + intros [|j] h Hj Hh; [done|]. discriminate Hh.
    + intros y Hy%list_elem_of_singleton. subst y. vm_compute. discriminate.
Defined.

(** The scenarios of section 8: a trade of a supported spot pair reaches the
    sink with its price. *)
Example trade_reaches_sink :
  on (H := Demo.env) (Message (Parses Demo.trade)) fresh
  = Return {| closed := false;
              delivered := [Next {| pairExchangeId := Demo.btc_usd;
                                    price := Some (JNum 50000) |}];
              wire := [] |}.
Proof. reflexivity. Qed.

Lemma forced_rotation_witness :
  restarts_for 0 Demo.rotated = [(14410000, (0%nat, ByRotation))].
Proof.
  destruct (forced_rotation (H := Demo.env) Demo.rotated 0 Demo.rotated_first)
    as (_ & _ & _ & _ & Hended).
  - exists 0, Demo.rotated_events. vm_compute. reflexivity.
  - vm_compute. reflexivity.
  - intros t c [= <- <-]. reflexivity.
  - destruct Hended as (_ & _ & _ & Hrf & _); [discriminate | exact Hrf].
Defined.

(** C1, on the code: a connection that reports an error before its
    rotation timer has fired gets two restarts, that of the error and, when
    the timer fires, that of the rotation, and two connections are then
    live. *)
Theorem stale_rotation_timer :
  exec (H := Demo.env) Demo.leaked_events (boot 0) = Some Demo.leaked
  ∧ now Demo.leaked = 14410000
  ∧ live_handles Demo.leaked = [1%nat; 2%nat]
  ∧ restarts_for 0 Demo.leaked
    = [(60000, (0%nat, ByError)); (14410000, (0%nat, ByRotation))].
Proof. vm_compute. by split_and!. Qed.

(** C3, on the code: the first connection is live and reports an error at
    14399000, one second before its rotation timer is due.  The restart of
    the error is due 60 s later, at 14459000.  The rotation timer of the
    ended connection fires all the same at 14400000 and its restart opens a
    connection at 14410000, 49 s before the restart of the error is due and
    while that restart is still pending. *)
Theorem replacement_before_backoff :
  live_handles (boot 0) = [0%nat]
  ∧ signals (H := Demo.env) 0 (Message (Parses Demo.error_down)) (boot 0)
    = [Error (Some (JStr "network down"))]
  ∧ exec (H := Demo.env) Demo.early_events (boot 0) = Some Demo.early
  ∧ now Demo.early = 14410000
  ∧ now Demo.early < 14399000 + rebootTimeIfError
  ∧ timers Demo.early
    = [(14399000 + rebootTimeIfError, PullLoop (0%nat, ByError));
       (28810000, Rotate 1)]
  ∧ live_handles Demo.early = [1%nat]
  ∧ handles Demo.early !! 1%nat
    = Some {| opened_at := 14410000; opened_by := Some (0%nat, ByRotation);
              sub := fresh; ended := None |}.
Proof. vm_compute. by split_and!. Qed.

End Examples.


(** * Further properties of the code *)

(** ** Splitting and joining *)
Module ArrFacts.
Import Str StrFacts Arr.

Lemma join_cons c piece rest :
  rest ≠ [] → join c (piece :: rest) = piece +:+ String c (join c rest).
Proof. by destruct rest. Qed.

Lemma join_split c s : join c (split c s) = s.
Proof.
  induction s as [|a r IH]; simpl; [done|].
  pose proof (split_nonempty c r) as Hne.
  destruct (Ascii.eqb_spec a c) as [->|Hac].
  - rewrite join_cons by done. simpl. by rewrite IH.
  - destruct (split c r) as [|p ps] eqn:Hsplit; [done|].
    rewrite <- IH. simpl. by destruct ps.
Qed.

Lemma split_snoc c s x :
  split c (s +:+ String c x) = split c s ++ split c x.
Proof.
  induction s as [|a r IH]; simpl.
  - by rewrite Ascii.eqb_refl.
  - destruct (Ascii.eqb a c); [by rewrite IH|].
    rewrite IH. pose proof (split_nonempty c r) as Hne.
    by destruct (split c r).
Qed.

End ArrFacts.

(** ** More on the codec *)
Module CodecMore.
Import Str StrFacts Arr ArrFacts Utils Codec CodecFacts.



Section WithEnv.
Context `{Env}.

Lemma decode_pieces symbol pe :
  symbolToPairExchange symbol = Some pe →
  ∃ e f t more, split sep symbol = e :: "SPOT"%string :: f :: t :: more
    ∧ pairExchange e (Some f) (Some t) = Some pe
    ∧ pe = {| pe_id := mkId e f t; pe_from := f; pe_to := t; pe_exchange := e |}.
Proof.
  unfold symbolToPairExchange.
  destruct (split sep symbol) as [|e [|ty rest]]; [done..|].
  destruct (String.eqb_spec ty "SPOT") as [->|]; [|done].
  destruct rest as [|f [|t more]]; simpl; [done..|].
  intros Hpe. exists e, f, t, more. split_and!; [done..|].
  unfold pairExchange in Hpe.
  destruct (supportTicker f && supportTicker t); [|done]. by injection Hpe as <-.
Qed.

(** A symbol with four pieces or more is decoded from its first four
    pieces: what follows them after a separator changes nothing. *)
Theorem decode_ignores_tail symbol extra :
  (4 ≤ length (split sep symbol))%nat →
  symbolToPairExchange (symbol +:+ "_" +:+ extra) = symbolToPairExchange symbol.
Proof.
  intros Hlen. unfold symbolToPairExchange.
  change (symbol +:+ "_" +:+ extra) with (symbol +:+ String sep extra).
  rewrite split_snoc.
  destruct (split sep symbol) as [|e [|ty [|f [|t more]]]]; simpl in *; try lia.
  done.
Qed.

(** The encoder on what the decoder returned: the identifier is made of
    pieces of the symbol, which hold no separator, so the encoder returns,
    with the three pieces around ["SPOT"]. *)
Lemma encode_decoded symbol pe :
  symbolToPairExchange symbol = Some pe →
  ∃ e f t more, split sep symbol = e :: "SPOT"%string :: f :: t :: more
    ∧ pairExchange e (Some f) (Some t) = Some pe
    ∧ pairExchangeIdToSymbol (pe_id pe) = Ok (e +:+ "_SPOT_" +:+ f +:+ "_" +:+ t)
    ∧ split sep (e +:+ "_SPOT_" +:+ f +:+ "_" +:+ t) = [e; "SPOT"%string; f; t].
Proof.
  intros Hdec. pose proof (split_pieces sep symbol) as Hpieces.
  destruct (decode_pieces _ _ Hdec) as (e & f & t & more & Hsplit & Hpe & ->).
  rewrite Hsplit in Hpieces.
  assert (includes sep e = false) as He by (apply Hpieces; by left).
  assert (includes sep f = false) as Hf by (apply Hpieces; do 2 right; by left).
  assert (includes sep t = false) as Ht by (apply Hpieces; do 3 right; by left).
  exists e, f, t, more. split_and!; [done | done | | by apply split_symbol].
  exact (proj2 (encode_template e f t He Hf Ht)).
Qed.

(** Encoding what was decoded gives the first four pieces of the symbol
    joined by the separator: the symbol itself when it has four pieces. *)
Theorem encode_of_decoded symbol pe :
  symbolToPairExchange symbol = Some pe →
  pairExchangeIdToSymbol (pe_id pe) = Ok (join sep (take 4 (split sep symbol)))
  ∧ (length (split sep symbol) = 4%nat →
     pairExchangeIdToSymbol (pe_id pe) = Ok symbol).
Proof.
  intros Hdec.
  destruct (encode_decoded _ _ Hdec) as (e & f & t & more & Hsplit & _ & Henc & _).
  assert (pairExchangeIdToSymbol (pe_id pe) = Ok (join sep (take 4 (split sep symbol))))
    as Heq by (by rewrite Hsplit).
  split; [exact Heq|]. intros Hlen. rewrite Heq.
  rewrite take_ge by lia. by rewrite join_split.
Qed.

Lemma reencoded_decodes symbol pe :
  symbolToPairExchange symbol = Some pe →
  ∃ symbol', pairExchangeIdToSymbol (pe_id pe) = Ok symbol'
             ∧ symbolToPairExchange symbol' = Some pe.
Proof.
  intros Hdec.
  destruct (encode_decoded _ _ Hdec) as (e & f & t & more & _ & Hpe & Henc & Hsplit).
  eexists. split; [exact Henc|].
  unfold symbolToPairExchange. rewrite Hsplit. exact Hpe.
Qed.

(** Encoding a decoded identifier gives a symbol that decodes to the same
    pair, whatever followed the fourth piece of the first symbol; decoding,
    encoding and decoding again is decoding. *)
Theorem decode_reencode symbol :
  (symbolToPairExchange symbol
     ≫= fun pe => match pairExchangeIdToSymbol (pe_id pe) with
                   | Ok symbol' => symbolToPairExchange symbol'
                   | EncodingError => None
                   end)
  = symbolToPairExchange symbol.
Proof.
  destruct (symbolToPairExchange symbol) as [pe|] eqn:Hdec; [|done].
  simpl. by destruct (reencoded_decodes _ _ Hdec) as (symbol' & -> & ->).
Qed.

End WithEnv.

End CodecMore.

(** ** The list of available pairs *)
Module RestFacts.
Import Utils Codec Rest.

Section WithEnv.
Context `{Env}.

Lemma collect_acc items acc : collect items acc = acc ++ collect items [].
Proof.
  revert acc. induction items as [|item items IH]; intros acc; simpl.
  - by rewrite app_nil_r.
  - destruct (symbolToPairExchange (symbol_id item)) as [pe|]; [|apply IH].
    destruct (supportTicker (pe_from pe) && supportTicker (pe_to pe)); [|apply IH].
    rewrite (IH (acc ++ [pe])), (IH [pe]). by rewrite <- app_assoc.
Qed.

Lemma collect_cons item items :
  collect (item :: items) []
  = match symbolToPairExchange (symbol_id item) with
    | Some pe =>
        if supportTicker (pe_from pe) && supportTicker (pe_to pe)
        then pe :: collect items [] else collect items []
    | None => collect items []
    end.
Proof.
  simpl. destruct (symbolToPairExchange (symbol_id item)) as [pe|]; [|done].
  destruct (supportTicker (pe_from pe) && supportTicker (pe_to pe)); [|done].
  by rewrite collect_acc.
Qed.

Lemma collect_app items1 items2 :
  collect (items1 ++ items2) [] = collect items1 [] ++ collect items2 [].
Proof.
  induction items1 as [|item items1 IH]; [done|].
  rewrite <- app_comm_cons, !collect_cons, IH.
  destruct (symbolToPairExchange (symbol_id item)) as [pe|]; [|done].
  by destruct (supportTicker (pe_from pe) && supportTicker (pe_to pe)).
Qed.

Lemma collect_length items : (length (collect items []) ≤ length items)%nat.
Proof.
  induction items as [|item items IH]; [done|].
  rewrite collect_cons. simpl.
  destruct (symbolToPairExchange (symbol_id item)) as [pe|]; [|lia].
  destruct (supportTicker (pe_from pe) && supportTicker (pe_to pe)); simpl; lia.
Qed.

Lemma collect_elem items pe :
  pe ∈ collect items [] ↔
  ∃ item, item ∈ items ∧ symbolToPairExchange (symbol_id item) = Some pe
          ∧ supportTicker (pe_from pe) = true ∧ supportTicker (pe_to pe) = true.
Proof.
  induction items as [|item items IH].
  - simpl. split; [by intros ?%elem_of_nil | by intros (? & ?%elem_of_nil & _)].
  - rewrite collect_cons. split.
    + destruct (symbolToPairExchange (symbol_id item)) as [pe'|] eqn:Hdec.
      * destruct (supportTicker (pe_from pe') && supportTicker (pe_to pe')) eqn:Hsup.
        -- intros [->|Hin]%elem_of_cons.
           ++ apply andb_true_iff in Hsup as [? ?].
              exists item. split_and!; [by left | done..].
           ++ apply IH in Hin as (item' & ? & ?). exists item'. split; [by right | done].
        -- intros (item' & ? & ?)%IH. exists item'. split; [by right | done].
      * intros (item' & ? & ?)%IH. exists item'. split; [by right | done].
    + intros (item' & [->|Hin]%elem_of_cons & Hdec & Hf & Ht).
      * rewrite Hdec, Hf, Ht. by left.
      * assert (pe ∈ collect items []) as Hpe by (apply IH; eauto).
        destruct (symbolToPairExchange (symbol_id item)) as [pe'|]; [|done].
        destruct (supportTicker (pe_from pe') && supportTicker (pe_to pe')); [by right | done].
Qed.

(** The pairs that [fetchAvailablePairExchanges] returns for a list of
    symbols are those that the decoder gives for a symbol of the list and
    whose two assets are supported, no other and all of them. *)
Theorem available_iff {E} items result :
  fetchAvailablePairExchanges (E := E) (Symbols items) = inr result →
  ∀ pe, pe ∈ result ↔
        ∃ item, item ∈ items ∧ symbolToPairExchange (symbol_id item) = Some pe
                ∧ supportTicker (pe_from pe) = true
                ∧ supportTicker (pe_to pe) = true.
Proof. intros [= <-] pe. apply collect_elem. Qed.

(** The result follows the order of the list: the result for two lists one
    after the other is the two results one after the other, and no result
    has more pairs than its list has symbols. *)
Theorem available_in_order {E} items1 items2 result1 result2 :
  fetchAvailablePairExchanges (E := E) (Symbols items1) = inr result1 →
  fetchAvailablePairExchanges (E := E) (Symbols items2) = inr result2 →
  fetchAvailablePairExchanges (E := E) (Symbols (items1 ++ items2))
  = inr (result1 ++ result2)
  ∧ (length result1 ≤ length items1)%nat.
Proof.
  intros [= <-] [= <-]. simpl. rewrite collect_app. split; [done|].
  apply collect_length.
Qed.

(** Each pair of the result has an identifier whose wire symbol decodes to
    that pair again. *)
Theorem available_reencode {E} items result pe :
  fetchAvailablePairExchanges (E := E) (Symbols items) = inr result →
  pe ∈ result →
  ∃ symbol, pairExchangeIdToSymbol (pe_id pe) = Ok symbol
            ∧ symbolToPairExchange symbol = Some pe.
Proof.
  intros [= <-] (item & _ & Hdec & _)%collect_elem.
  by eapply CodecMore.reencoded_decodes.
Qed.

End WithEnv.

End RestFacts.

(** ** A subscription in use *)
Module ClientFacts.
Import Utils Js Rx Provider ProviderFacts Client.

Section WithEnv.
Context `{Env}.

Lemma perform_all_snoc cs c sub :
  perform_all (cs ++ [c]) sub = perform c (perform_all cs sub).
Proof. unfold perform_all. by rewrite foldl_app. Qed.

Lemma perform_all_cons c cs sub :
  perform_all (c :: cs) sub = perform_all cs (perform c sub).
Proof. done. Qed.

(** What a list of calls adds to the signals and to the socket. *)
Lemma perform_all_delivered cs sub :
  ∃ l, delivered (perform_all cs sub) = delivered sub ++ l
       ∧ ∀ n, n ∈ l → O n ∈ cs.
Proof.
  revert sub. induction cs as [|c cs IH]; intros sub.
  - exists []. split; [by rewrite app_nil_r | by intros ? ?%elem_of_nil].
  - rewrite perform_all_cons. destruct (IH (perform c sub)) as (l & Hd & Hl).
    assert (∃ l0, delivered (perform c sub) = delivered sub ++ l0
                  ∧ ∀ n, n ∈ l0 → O n = c) as (l0 & Hd0 & Hl0).
    { destruct c as [n|op]; simpl.
      - destruct (closed sub);
          [exists []; split; [by rewrite app_nil_r | by intros ? ?%elem_of_nil]|].
        exists [n]. split; [|by intros ? ->%list_elem_of_singleton].
        destruct (terminal n); [|done]. by rewrite sub_unsubscribe_delivered.
      - exists []. split; [by rewrite app_nil_r | by intros ? ?%elem_of_nil]. }
    exists (l0 ++ l). split; [by rewrite Hd, Hd0, app_assoc|].
    intros n [Hn|Hn]%elem_of_app; apply elem_of_cons; [left; by apply Hl0 | right; by apply Hl].
Qed.

Lemma perform_sent c sub :
  sent (wire (perform c sub))
  = sent (wire sub) ++ match c with Ws (Send h) => [h] | _ => [] end.
Proof.
  unfold sent. destruct c as [n|[h|]]; simpl.
  - destruct (closed sub); [by rewrite app_nil_r|].
    destruct (terminal n); simpl; [|by rewrite app_nil_r].
    by rewrite omap_app.
  - by rewrite omap_app.
  - by rewrite omap_app.
Qed.

Lemma perform_all_sent cs sub :
  sent (wire (perform_all cs sub))
  = sent (wire sub)
    ++ omap (fun c => match c with Ws (Send h) => Some h | _ => None end) cs.
Proof.
  revert sub. induction cs as [|c cs IH]; intros sub.
  - by rewrite app_nil_r.
  - rewrite perform_all_cons, IH, perform_sent, <- app_assoc. f_equal.
    by destruct c as [n|[h|]].
Qed.

(** The calls of the ["message"] listener. *)
Lemma onMessage_calls d cs :
  onMessage d = Return cs →
  cs = []
  ∨ (∃ m, cs = [O (Error m); Ws Close])
  ∨ ∃ r symbol pe,
      d = Parses r ∧ is_object r = true
      ∧ is_string "error" (get r "type") = false
      ∧ get r "symbol_id" = Some (JStr symbol)
      ∧ Codec.symbolToPairExchange symbol = Some pe
      ∧ cs = [O (Next {| pairExchangeId := pe_id pe; price := get r "price" |})].
Proof.
  destruct d as [|r]; simpl; [done|]. unfold onParsed.
  destruct (is_object r) eqn:Hobj; [|intros [= <-]; auto].
  destruct (is_string "error" (get r "type")) eqn:Hty; [intros [= <-]; eauto|].
  destruct (get r "symbol_id") as [[| | |symbol| |]|] eqn:Hsym; try done.
  destruct (Codec.symbolToPairExchange symbol) as [pe|] eqn:Hdec; intros [= <-]; [|auto].
  do 2 right. exists r, symbol, pe. by split_and!.
Qed.

Lemma next_source e sub sub' ev :
  on e sub = Return sub' → Next ev ∈ news sub sub' →
  ∃ r symbol pe,
    e = Message (Parses r) ∧ is_object r = true
    ∧ is_string "error" (get r "type") = false
    ∧ get r "symbol_id" = Some (JStr symbol)
    ∧ Codec.symbolToPairExchange symbol = Some pe
    ∧ ev = {| pairExchangeId := pe_id pe; price := get r "price" |}.
Proof.
  unfold on. destruct (listener e) as [cs|] eqn:Hl; [|done]. intros [= <-].
  destruct (perform_all_delivered cs sub) as (l & Hd & Hl').
  rewrite (news_grown _ _ _ Hd). intros Hin%Hl'.
  destruct e as [|d|code|]; simpl in Hl.
  - injection Hl as <-. apply list_elem_of_singleton in Hin. discriminate.
  - destruct (onMessage_calls _ _ Hl)
      as [-> | [[m ->] | (r & symbol & pe & -> & ? & ? & ? & ? & ->)]].
    + by apply elem_of_nil in Hin.
    + apply elem_of_cons in Hin as [[=]|Hin].
      apply list_elem_of_singleton in Hin. discriminate.
    + apply list_elem_of_singleton in Hin. injection Hin as ->.
      exists r, symbol, pe. by split_and!.
  - injection Hl as <-. apply list_elem_of_singleton in Hin. discriminate.
  - done.
Qed.

(** A tick reaches the sink only from a ["message"] event whose frame is
    an object, is not tagged as an error and has a string [symbol_id] that
    decodes to a pair; it carries the identifier of that pair and what the
    frame has under [price]. *)
Theorem tick_origin e sub sub' ev :
  on e sub = Return sub' → Next ev ∈ news sub sub' →
  ∃ r symbol pe,
    e = Message (Parses r) ∧ is_object r = true
    ∧ is_string "error" (get r "type") = false
    ∧ get r "symbol_id" = Some (JStr symbol)
    ∧ Codec.symbolToPairExchange symbol = Some pe
    ∧ ev = {| pairExchangeId := pe_id pe; price := get r "price" |}.
Proof. apply next_source. Qed.

Lemma drive_inv (P : Subscription → Prop) :
  (∀ a sub sub', P sub → act a sub = Return sub' → P sub') →
  ∀ acts sub sub', P sub → drive acts sub = Return sub' → P sub'.
Proof.
  intros Hstep acts. induction acts as [|a acts IH]; intros sub sub' HP; simpl.
  - by intros [= <-].
  - destruct (act a sub) as [sub1|] eqn:Hact; [|done].
    apply IH. by eapply Hstep.
Qed.

(** Whatever events the socket has and whenever the consumer
    unsubscribes, every tick that reaches the sink carries the identifier
    of a pair that the decoder returned for a symbol, and the encoder
    returns for that identifier a wire symbol that decodes to the same
    pair. *)
Theorem ticks_reencode acts sub' ev :
  drive acts fresh = Return sub' → Next ev ∈ delivered sub' →
  ∃ symbol pe symbol',
    Codec.symbolToPairExchange symbol = Some pe
    ∧ pairExchangeId ev = pe_id pe
    ∧ Codec.pairExchangeIdToSymbol (pairExchangeId ev) = Ok symbol'
    ∧ Codec.symbolToPairExchange symbol' = Some pe.
Proof.
  intros Hdrive Hin.
  assert (∃ symbol pe, Codec.symbolToPairExchange symbol = Some pe
                       ∧ pairExchangeId ev = pe_id pe) as (symbol & pe & Hdec & Hid).
  { revert ev Hin.
    refine (drive_inv
              (fun sub => ∀ ev, Next ev ∈ delivered sub →
                 ∃ symbol pe, Codec.symbolToPairExchange symbol = Some pe
                              ∧ pairExchangeId ev = pe_id pe)
              _ acts fresh sub' _ Hdrive).
    - intros [e|] sub sub1 HP; simpl.
      + intros Hon ev. destruct (on_effect _ _ _ Hon) as [-> _].
        intros [Hin|Hin]%elem_of_app; [by apply HP|].
        destruct (next_source _ _ _ _ Hon Hin)
          as (r & symbol & pe & _ & _ & _ & _ & Hdec & ->).
        by exists symbol, pe.
      + intros [= <-] ev. rewrite sub_unsubscribe_delivered. apply HP.
    - by intros ev ?%elem_of_nil. }
  destruct (CodecMore.reencoded_decodes _ _ Hdec) as (symbol' & Henc & Hdec').
  exists symbol, pe, symbol'. rewrite Hid. by split_and!.
Qed.

(** The signals of a subscription follow the observable contract: ticks,
    then at most one of the error signal and the completion signal, and
    nothing after it; once a terminal signal is there the subscriber is
    stopped. *)
Theorem signals_are_orderly acts sub' :
  drive acts fresh = Return sub' → orderly sub'.
Proof.
  refine (drive_inv orderly _ acts fresh sub' _).
  - intros a sub sub1 (evs & last & Hd & Hlast) Hact.
    assert (closed sub = false → last = []) as Hopen.
    { intros Hc. destruct Hlast as [->|(n & _ & _ & ?)]; [done | congruence]. }
    destruct a as [e|]; simpl in Hact.
    + destruct (on_effect _ _ _ Hact) as [Hd1 Heff].
      destruct (closed sub) eqn:Hc.
      * destruct Heff as [Hc1 Hnews]. rewrite Hnews, app_nil_r in Hd1.
        exists evs, last. split; [congruence|].
        destruct Hlast as [->|(n & -> & ? & _)]; [by left | right; eauto].
      * rewrite (Hopen eq_refl), app_nil_r in Hd.
        destruct Heff as [[Hc1 [Hnews | [ev Hnews]]] | [Hc1 (n & Hnews & Hn)]];
          rewrite Hnews in Hd1.
        -- exists evs, []. rewrite app_nil_r in *. split; [by rewrite Hd1, Hd | by left].
        -- exists (evs ++ [ev]), []. rewrite app_nil_r, fmap_app. simpl.
           split; [by rewrite Hd1, Hd | by left].
        -- exists evs, [n]. split; [by rewrite Hd1, Hd | right; eauto].
    + injection Hact as <-. exists evs, last.
      rewrite sub_unsubscribe_delivered. split; [done|].
      destruct Hlast as [->|(n & -> & ? & _)]; [by left|].
      right. exists n. split_and!; [done..|]. apply sub_unsubscribe_closed.
  - exists [], []. split; [done | by left].
Qed.

Lemma act_sent a sub sub' :
  act a sub = Return sub' →
  sent (wire sub') = sent (wire sub) ++ (if is_open a then [hello] else []).
Proof.
  destruct a as [e|]; simpl.
  - unfold on. destruct (listener e) as [cs|] eqn:Hl; [|done]. intros [= <-].
    rewrite perform_all_sent. f_equal.
    destruct e as [|d|code|]; simpl in *.
    + by injection Hl as <-.
    + by destruct (onMessage_calls _ _ Hl)
        as [-> | [[m ->] | (r & symbol & pe & _ & _ & _ & _ & _ & ->)]].
    + by injection Hl as <-.
    + done.
  - intros [= <-]. rewrite app_nil_r. unfold sub_unsubscribe.
    destruct (closed sub); [done|]. simpl. unfold sent.
    by rewrite omap_app, app_nil_r.
Qed.

Lemma drive_sent acts sub sub' :
  drive acts sub = Return sub' →
  sent (wire sub') = sent (wire sub) ++ replicate (opens acts) hello.
Proof.
  revert sub. induction acts as [|a acts IH]; intros sub; simpl.
  - intros [= <-]. by rewrite app_nil_r.
  - destruct (act a sub) as [sub1|] eqn:Hact; [|done]. intros Hdrive.
    rewrite (IH _ Hdrive), (act_sent _ _ _ Hact), <- app_assoc. f_equal.
    unfold opens. rewrite filter_cons.
    destruct (is_open a); [by rewrite decide_True | by rewrite decide_False].
Qed.

(** The handshake is all the client ever sends: one [hello], with the key
    and the list of supported assets, for each ["open"] event of the
    socket. *)
Theorem one_hello_per_open acts sub' :
  drive acts fresh = Return sub' →
  sent (wire sub') = replicate (opens acts) hello.
Proof. intros Hdrive. by rewrite (drive_sent _ _ _ Hdrive). Qed.

(** A subscription that is closed, by the error signal, by the completion
    signal or by the consumer, has had [ws.close()] called on its socket. *)
Theorem closed_has_closed_socket acts sub' :
  drive acts fresh = Return sub' → closed sub' = true → Close ∈ wire sub'.
Proof.
  refine (drive_inv (fun sub => closed sub = true → Close ∈ wire sub)
            _ acts fresh sub' _); [|done].
  assert (∀ sub, (closed sub = true → Close ∈ wire sub) →
                 closed (sub_unsubscribe sub) = true →
                 Close ∈ wire (sub_unsubscribe sub)) as Hunsub.
  { intros sub HP _. unfold sub_unsubscribe.
    destruct (closed sub) eqn:Hc; [by apply HP|]. simpl.
    apply elem_of_app. right. by left. }
  assert (∀ c sub, (closed sub = true → Close ∈ wire sub) →
                   closed (perform c sub) = true → Close ∈ wire (perform c sub))
    as Hperform.
  { intros [n|op] sub HP; simpl.
    - destruct (closed sub) eqn:Hc; [by rewrite Hc|].
      destruct (terminal n); [|done]. intros _. simpl.
      apply elem_of_app. right. by left.
    - intros Hc. apply elem_of_app. left. by apply HP. }
  intros [e|] sub sub1 HP; simpl.
  - unfold on. destruct (listener e) as [cs|]; [|done]. intros [= <-].
    clear -HP Hperform. revert sub HP.
    induction cs as [|c cs IH]; intros sub HP; [done|].
    rewrite perform_all_cons. apply IH. by apply Hperform.
  - intros [= <-]. by apply Hunsub.
Qed.

(** When a listener throws: on an ["error"] event of the socket, which has
    no listener; on a message that is not JSON; and on a message that is an
    object, is not tagged as an error and has no string under [symbol_id].
    In no other case, and whether or not the subscriber is stopped. *)
Theorem listener_throws_iff e sub x :
  on e sub = Throw x ↔
  (e = Failed ∧ x = UnhandledError)
  ∨ (e = Message Malformed ∧ x = SyntaxError)
  ∨ ∃ r, e = Message (Parses r) ∧ x = TypeError
         ∧ is_object r = true
         ∧ is_string "error" (get r "type") = false
         ∧ ∀ symbol, get r "symbol_id" ≠ Some (JStr symbol).
Proof.
  unfold on. split.
  - destruct e as [|[|r]|code|]; simpl; try done.
    + intros [= <-]. auto.
    + unfold onParsed. destruct (is_object r) eqn:Hobj; [|done].
      destruct (is_string "error" (get r "type")) eqn:Hty; [done|].
      destruct (get r "symbol_id") as [[| | |symbol| |]|] eqn:Hsym;
        try (intros [= <-]; do 2 right; exists r;
             split_and!; [done..|]; intros s0; congruence).
      by destruct (Codec.symbolToPairExchange symbol).
    + intros [= <-]. auto.
  - intros [[-> ->] | [[-> ->] | (r & -> & -> & Hobj & Hty & Hsym)]]; [done..|].
    simpl. unfold onParsed. rewrite Hobj, Hty.
    destruct (get r "symbol_id") as [[| | |symbol| |]|]; try done.
    by destruct (Hsym symbol).
Qed.

End WithEnv.

End ClientFacts.

(** ** The loop as a whole *)
Module LoopFacts.
Import Js Rx Provider ProviderFacts Sync SyncFacts Loop.

Lemma handles_cancel_finish k c s j hj :
  handles (cancel k (finish k c s)) !! j = Some hj →
  ∃ h, handles s !! j = Some h ∧ opened_by hj = opened_by h
       ∧ opened_at hj = opened_at h.
Proof.
  unfold cancel, finish.
  destruct (handles s !! k) as [h|] eqn:Hk; simpl.
  - rewrite list_lookup_insert_eq by by eapply lookup_lt_Some. simpl.
    rewrite list_insert_insert_eq.
    intros [(-> & <- & _) | [_ Hj]]%list_lookup_insert_Some; eauto.
  - rewrite Hk. eauto.
Qed.

Lemma timers_cancel_finish k c s : timers (cancel k (finish k c s)) = timers s.
Proof.
  unfold cancel, finish. destruct (handles s !! k) as [h|] eqn:Hk; simpl.
  - by rewrite list_lookup_insert_eq by by eapply lookup_lt_Some.
  - by rewrite Hk.
Qed.

Lemma length_cancel_finish k c s :
  length (handles (cancel k (finish k c s))) = length (handles s).
Proof.
  unfold cancel, finish. destruct (handles s !! k) as [h|] eqn:Hk; simpl.
  - rewrite list_lookup_insert_eq by by eapply lookup_lt_Some.
    simpl. by rewrite !length_insert.
  - by rewrite Hk.
Qed.

Lemma pending_snoc (ts : list (Z * Task)) x :
  length (filter (fun x => is_pullLoop x = true) (ts ++ [x]))
  = (length (filter (fun x => is_pullLoop x = true) ts)
     + if is_pullLoop x then 1 else 0)%nat.
Proof.
  rewrite filter_app, length_app, filter_cons, filter_nil.
  destruct (is_pullLoop x); [by rewrite decide_True | by rewrite decide_False].
Qed.

Lemma pending_popped (ts rest : list (Z * Task)) x :
  ts ≡ₚ x :: rest →
  length (filter (fun x => is_pullLoop x = true) ts)
  = ((if is_pullLoop x then 1 else 0)
     + length (filter (fun x => is_pullLoop x = true) rest))%nat.
Proof.
  intros ->. rewrite filter_cons.
  destruct (is_pullLoop x); [by rewrite decide_True | by rewrite decide_False].
Qed.

Section WithEnv.
Context `{Env}.

(** Where the handles of a state come from: from the state before, opened
    as they were, or from a restart that was pending. *)
Lemma step_opened_by ev s s' j hj :
  step ev s = Some s' → handles s' !! j = Some hj →
  (∃ h, handles s !! j = Some h ∧ opened_by hj = opened_by h)
  ∨ (j = length (handles s)
     ∧ ∃ d o, (d, PullLoop o) ∈ timers s ∧ opened_by hj = Some o).
Proof.
  destruct ev as [|t k e]; simpl.
  - destruct (pop_earliest (timers s)) as [[[d task] rest]|] eqn:Hpop; [|done].
    destruct (pop_earliest_spec _ _ _ Hpop) as [Hperm _].
    intros [= <-]. destruct task as [o|k]; simpl.
    + intros [Hj | [Hlen [Hj0 <-]%list_lookup_singleton_Some]]%lookup_app_Some.
      * left. eauto.
      * right. split; [lia|]. exists d, o. split; [|done].
        rewrite Hperm. by left.
    + unfold rotate, restart, setTimeout. simpl.
      intros (h & ? & ? & _)%handles_cancel_finish. left. eauto.
  - destruct (bool_decide (now s ≤ t) && _); [|done].
    intros (h & sub' & Hk & _ & Hcases)%socket_cases Hj. simpl in *. left.
    destruct Hcases as [(_ & _ & _ & ->) | (n & c & _ & _ & _ & _ & _ & ->)];
      simpl in Hj;
      apply list_lookup_insert_Some in Hj as [(-> & <- & _) | [_ Hj]]; eauto.
Qed.

Lemma ordered_origins_step ev s s' :
  Inv s → ordered_origins s → step ev s = Some s' → ordered_origins s'.
Proof.
  intros HI [Hlt Huniq] Hstep. split.
  - intros j h k c Hj Hby.
    destruct (step_opened_by _ _ _ _ _ Hstep Hj)
      as [(h0 & Hj0 & Heq) | (-> & d & o & Hpend & Heq)].
    + eapply Hlt; [exact Hj0 | by rewrite <- Heq].
    + rewrite Hby in Heq. injection Heq as <-.
      by apply (inv_pending _ HI), (inv_restart_range _ HI) in Hpend.
  - intros j j' h h' o Hj Hj' Hby Hby'.
    destruct (step_opened_by _ _ _ _ _ Hstep Hj)
      as [(h0 & Hj0 & Heq) | (-> & d & o1 & Hpend & Heq)];
      destruct (step_opened_by _ _ _ _ _ Hstep Hj')
        as [(h0' & Hj0' & Heq') | (-> & d' & o1' & Hpend' & Heq')]; [| | |done].
    + eapply Huniq; [exact Hj0 | exact Hj0' | by rewrite <- Heq | by rewrite <- Heq'].
    + exfalso. rewrite Hby' in Heq'. injection Heq' as <-.
      rewrite Hby in Heq. symmetry in Heq.
      destruct (inv_opened _ HI _ _ _ Hj0 Heq) as [_ Hno].
      apply Hno, task_elem. eauto.
    + exfalso. rewrite Hby in Heq. injection Heq as <-.
      rewrite Hby' in Heq'. symmetry in Heq'.
      destruct (inv_opened _ HI _ _ _ Hj0' Heq') as [_ Hno].
      apply Hno, task_elem. eauto.
Qed.

Lemma ordered_origins_exec evs s s' :
  Inv s → ordered_origins s → exec evs s = Some s' → ordered_origins s'.
Proof.
  revert s. induction evs as [|ev evs IH]; intros s HI HO; simpl.
  - by intros [= <-].
  - destruct (step ev s) as [s1|] eqn:Hstep; [|done].
    apply IH; [by eapply Inv_step | by eapply ordered_origins_step].
Qed.

Lemma ordered_origins_reachable s : reachable s → ordered_origins s.
Proof.
  intros (t & evs & Hexec).
  eapply ordered_origins_exec; [apply Inv_boot | | exact Hexec].
  split.
  - intros [|j] h k c; simpl; [by intros [= <-] | done].
  - intros [|j] [|j'] h h' o; simpl; done.
Qed.

(** Every handle has its rotation closure run, once, when it is due,
    whether the handle is still live or not: before that time the timer is
    pending and the rotation has issued no restart; after it the handle is
    closed and the restart of the rotation is on record, in addition to the
    restart of the signal if a signal had ended the handle. *)
Theorem rotation_fires_regardless s k h :
  reachable s → handles s !! k = Some h →
  let due := opened_at h + autoRebootInterval in
  (now s < due →
   (due, Rotate k) ∈ timers s ∧ ∀ d, (d, (k, ByRotation)) ∉ restarts s)
  ∧ (due < now s →
     closed (sub h) = true
     ∧ (Rotate k ∉ (timers s).*2)
     ∧ (due + autoRebootHangTime, (k, ByRotation)) ∈ restarts s)
  ∧ (∀ t c, ended h = Some (t, c) → c ≠ ByRotation → due < now s →
            restarts_for k s
            = [(t + delay c, (k, c)); (due + autoRebootHangTime, (k, ByRotation))]).
Proof.
  intros Hreach Hk due. pose proof (Inv_reachable _ Hreach) as HI.
  destruct (inv_handles _ HI _ _ Hk) as [Hopen Hcase].
  assert (∀ l d, restarts_for k s = l → (d, (k, ByRotation)) ∈ restarts s →
                 (d, (k, ByRotation)) ∈ l) as Hfor.
  { intros l d <- Hd. by apply restarts_for_elem. }
  assert (∀ x, x ∈ restarts_for k s → x ∈ restarts s) as Hsub.
  { intros x Hx. by apply restarts_for_elem in Hx as [? _]. }
  destruct (ended h) as [[t c]|] eqn:Hend.
  - assert (c = ByRotation ∨ c ≠ ByRotation) as [-> | Hc]
      by (destruct c; auto; right; done).
    + destruct Hcase as (Hcl & -> & Hle & Hgone & Hrf). fold due in Hle.
      split_and!; [lia | | by intros t' c' [= <- <-]].
      intros _. split_and!; [done..|]. apply Hsub. rewrite Hrf. by left.
    + assert (closed (sub h) = true
              ∧ (((rotation_timer k h ∈ timers s)
                  ∧ restarts_for k s = [(t + delay c, (k, c))])
                 ∨ ((Rotate k ∉ (timers s).*2)
                    ∧ due ≤ now s
                    ∧ restarts_for k s
                      = [(t + delay c, (k, c)); rotation_restart k h])))
        as [Hcl Hor] by (destruct c; [| |done]; by destruct Hcase as (? & _ & _ & ?)).
      destruct Hor as [[Hrot Hrf] | (Hgone & Hle & Hrf)].
      * pose proof (inv_time _ HI _ _ Hrot) as Hge. simpl in Hge. fold due in Hge.
        split_and!; [|lia|intros; lia].
        intros _. split; [done|]. intros d Hd%(Hfor _ _ Hrf).
        apply list_elem_of_singleton in Hd. congruence.
      * split_and!; [lia | |].
        -- intros _. split_and!; [done..|]. apply Hsub. rewrite Hrf. right. by left.
        -- intros t' c' [= <- <-] _ _. done.
  - destruct Hcase as (Hcl & Hrot & Hrf).
    pose proof (inv_time _ HI _ _ Hrot) as Hge. simpl in Hge. fold due in Hge.
    split_and!; [|lia|done].
    intros _. split; [done|]. intros d Hd%(Hfor _ _ Hrf). by apply elem_of_nil in Hd.
Qed.

(** The restarts on record for one handle and one cause have one due
    time. *)
Lemma restart_due_unique s d d' o :
  Inv s → (d, o) ∈ restarts s → (d', o) ∈ restarts s → d = d'.
Proof.
  intros HI Hd Hd'. destruct o as [k c].
  pose proof (inv_restart_range _ HI _ _ _ Hd) as Hlt.
  destruct (lookup_lt_is_Some_2 _ _ Hlt) as [h Hk].
  destruct (inv_handles _ HI _ _ Hk) as [_ Hcase].
  assert ((d, (k, c)) ∈ restarts_for k s) as Hin by by apply restarts_for_elem.
  assert ((d', (k, c)) ∈ restarts_for k s) as Hin' by by apply restarts_for_elem.
  assert (∃ t c0, c0 ≠ ByRotation
                  ∧ ∀ x, x ∈ restarts_for k s →
                         x = (t + delay c0, (k, c0)) ∨ x = rotation_restart k h)
    as (t & c0 & Hc0 & Hall).
  { destruct (ended h) as [[t c0]|].
    - assert (c0 = ByRotation ∨ c0 ≠ ByRotation) as [-> | Hc]
        by (destruct c0; auto; right; done).
      + destruct Hcase as (_ & _ & _ & _ & ->). exists 0, ByError. split; [done|].
        intros x ->%list_elem_of_singleton. by right.
      + exists t, c0. split; [done|].
        assert (restarts_for k s = [(t + delay c0, (k, c0))]
                ∨ restarts_for k s = [(t + delay c0, (k, c0)); rotation_restart k h])
          as [-> | ->].
        { destruct c0; [| |done];
            destruct Hcase as (_ & _ & _ & [[_ ?]|(_ & _ & ?)]); auto. }
        * intros x ->%list_elem_of_singleton. by left.
        * intros x [->|Hx]%elem_of_cons; [by left|].
          apply list_elem_of_singleton in Hx as ->. by right.
    - destruct Hcase as (_ & _ & ->). exists 0, ByError. split; [done|].
      by intros x ?%elem_of_nil. }
  unfold rotation_restart in Hall.
  destruct (Hall _ Hin) as [Heq | Heq]; destruct (Hall _ Hin') as [Heq' | Heq'];
    injection Heq; injection Heq'; intros; congruence.
Qed.

(** Every restart on record opens one handle, at the time it is due:
    before that time its timer is pending and no handle has been opened by
    it; after it one handle has been opened by it, at that time, and no
    other. *)
Theorem restart_opens_once_when_due s d o :
  reachable s → (d, o) ∈ restarts s →
  (now s < d →
   (d, PullLoop o) ∈ timers s
   ∧ ∀ j h, handles s !! j = Some h → opened_by h ≠ Some o)
  ∧ (d < now s →
     ∃ j h, handles s !! j = Some h ∧ opened_by h = Some o ∧ opened_at h = d
            ∧ ∀ j' h', handles s !! j' = Some h' → opened_by h' = Some o → j' = j).
Proof.
  intros Hreach Hr. pose proof (Inv_reachable _ Hreach) as HI.
  destruct (ordered_origins_reachable _ Hreach) as [_ Huniq].
  destruct (restart_facts s d o HI Hr) as (_ & Hbefore & Hafter).
  { intros d' Hd'. by eapply restart_due_unique. }
  split; [exact Hbefore|].
  intros (j & h & Hj & Hby & Hat)%Hafter. exists j, h. split_and!; [done..|].
  intros j' h' Hj' Hby'. by eapply Huniq.
Qed.

Lemma reachable_has_first s : reachable s → ∃ h, handles s !! 0%nat = Some h.
Proof.
  intros (t & evs & Hexec).
  edestruct (exec_stable evs (boot t) s 0%nat) as (h & Hh & _); [done..|]. eauto.
Qed.

(** The loop never dies out: in every state a connection is live or a
    restart is pending. *)
Theorem never_dies s :
  reachable s →
  (∃ k h, handles s !! k = Some h ∧ live h = true)
  ∨ ∃ d o, (d, PullLoop o) ∈ timers s.
Proof.
  intros Hreach. pose proof (Inv_reachable _ Hreach) as HI.
  destruct (ordered_origins_reachable _ Hreach) as [Hlt _].
  destruct (reachable_has_first _ Hreach) as [h0 H0].
  pose proof (lookup_lt_Some _ _ _ H0) as Hpos.
  destruct (lookup_lt_is_Some_2 (handles s) (pred (length (handles s))))
    as [h Hk]; [lia|].
  set (K := pred (length (handles s))) in *.
  destruct (inv_handles _ HI _ _ Hk) as [_ Hcase].
  assert (closed (sub h) = false ∨ ∃ d c, (d, (K, c)) ∈ restarts s) as [Hlive | Hrec].
  { destruct (ended h) as [[t c]|].
    - right.
      assert (∃ x, x ∈ restarts_for K s) as [[d [k c']] Hx].
      { destruct c;
          [destruct Hcase as (_ & _ & _ & [[_ ->]|(_ & _ & ->)])
          |destruct Hcase as (_ & _ & _ & [[_ ->]|(_ & _ & ->)])
          |destruct Hcase as (_ & _ & _ & _ & ->)];
          eexists; by left. }
      apply restarts_for_elem in Hx as [Hx Hk']. simpl in Hk'. subst k. eauto.
    - left. by destruct Hcase as (? & _). }
  - left. exists K, h. split; [done|]. unfold live. by rewrite Hlive.
  - destruct Hrec as (d & c & Hr).
    destruct (inv_issued _ HI _ _ Hr) as [Hpend | (j & hj & Hj & Hby & _)]; [eauto|].
    exfalso. pose proof (Hlt _ _ _ _ Hj Hby). apply lookup_lt_Some in Hj. lia.
Qed.

Lemma count_step ev s s' :
  step ev s = Some s' →
  (length (handles s) + length (pending_restarts s))%nat = S (length (restarts s)) →
  (length (handles s') + length (pending_restarts s'))%nat = S (length (restarts s')).
Proof.
  unfold pending_restarts. destruct ev as [|t k e]; simpl.
  - destruct (pop_earliest (timers s)) as [[[d task] rest]|] eqn:Hpop; [|done].
    destruct (pop_earliest_spec _ _ _ Hpop) as [Hperm _].
    rewrite (pending_popped _ _ _ Hperm).
    intros [= <-]. destruct task as [o|k]; unfold run_task.
    + unfold pullLoop, setTimeout. cbn [handles timers restarts now].
      rewrite length_app, pending_snoc.
      change (is_pullLoop (d, PullLoop o)) with true.
      change (is_pullLoop (_, Rotate _)) with false.
      cbn [length]. lia.
    + unfold rotate, restart, setTimeout. cbn [handles timers restarts now].
      rewrite timers_cancel_finish, length_cancel_finish, restarts_cancel, restarts_finish.
      cbn [handles timers restarts now]. rewrite length_app, pending_snoc.
      change (is_pullLoop (d, Rotate k)) with false.
      change (is_pullLoop (_, PullLoop _)) with true.
      cbn [length]. lia.
  - destruct (bool_decide (now s ≤ t) && _); [|done].
    intros (h & sub' & Hk & _ & Hcases)%socket_cases.
    cbn [handles timers restarts now] in *.
    destruct Hcases as [(_ & _ & _ & ->) | (n & c & _ & _ & _ & _ & _ & ->)];
      unfold set_handle; cbn [handles timers restarts now];
      rewrite length_insert; [done|].
    rewrite length_app, pending_snoc.
    change (is_pullLoop (_, PullLoop _)) with true.
    cbn [length]. lia.
Qed.

(** Connections and restarts are in balance: the handles opened so far and
    the restarts still pending are, together, one more than the restarts
    issued.  No restart is lost, and none opens two connections. *)
Theorem handles_and_restarts_balance s :
  reachable s →
  (length (handles s) + length (pending_restarts s))%nat = S (length (restarts s)).
Proof.
  intros (t & evs & Hexec). revert Hexec.
  assert ((length (handles (boot t)) + length (pending_restarts (boot t)))%nat
          = S (length (restarts (boot t)))) as Hboot by done.
  revert Hboot. generalize (boot t). induction evs as [|ev evs IH]; intros s0 H0; simpl.
  - by intros [= <-].
  - destruct (step ev s0) as [s1|] eqn:Hstep; [|done].
    apply IH. by eapply count_step.
Qed.

Lemma singleton_tasks (ts : list (Z * Task)) task :
  ts.*2 = [task] → ∃ d, ts = [(d, task)].
Proof.
  destruct ts as [|[d x] [|y ts]]; simpl; [done | | done].
  intros [= ->]. eauto.
Qed.

Lemma not_rotation_only_step ev s s' :
  step ev s = Some s' → ¬ rotation_only s → ¬ rotation_only s'.
Proof.
  intros Hstep Hnot Hro. apply Hnot. intros k h t c Hk Hend.
  destruct (step_stable _ _ _ _ _ Hstep Hk) as (h' & Hk' & _ & _ & Hkeep & _).
  eapply Hro; [exact Hk' | by apply Hkeep].
Qed.

Lemma alternating_step ev s s' :
  Inv s → alternating s → step ev s = Some s' →
  alternating s' ∨ ¬ rotation_only s'.
Proof.
  intros HI (K & hK & Hlen & HK & Hlive & Hcase).
  destruct ev as [|t k e]; simpl.
  - destruct Hcase as [[Hcl Hts] | [Hcl Hts]];
      destruct (singleton_tasks _ _ Hts) as [d Hts'];
      rewrite Hts'; simpl; intros [= <-]; left.
    + erewrite rotate_eq by exact HK. simpl.
      eexists K, _. split_and!; unfold set_handle; cbn [handles timers restarts now].
      * by rewrite length_insert.
      * apply list_lookup_insert_eq. by eapply lookup_lt_Some.
      * intros j h [(<- & <- & _) | [Hne Hj]]%list_lookup_insert_Some; [done|].
        intros Hc. by apply (Hlive _ _ Hj).
      * right. split; [apply sub_unsubscribe_closed | done].
    + unfold pullLoop, setTimeout. simpl.
      eexists (S K), _. split_and!; unfold set_handle; cbn [handles timers restarts now].
      * rewrite length_app. simpl. lia.
      * rewrite lookup_app_r by lia. rewrite Hlen, Nat.sub_diag. done.
      * intros j h [Hj | [Hge Hj]]%lookup_app_Some Hc.
        -- pose proof (Hlive _ _ Hj Hc) as ->. congruence.
        -- apply lookup_lt_Some in Hj. simpl in Hj. lia.
      * left. split; [done|]. by rewrite Hlen.
  - destruct (bool_decide (now s ≤ t) && _); [|done].
    intros (h & sub' & Hk & _ & Hcases)%socket_cases. simpl in *.
    destruct Hcases as [(_ & Hcl & _ & ->) | (n & c & _ & _ & Hc & Hcl & _ & ->)].
    + left. destruct (decide (k = K)) as [->|Hne].
      * simplify_eq. eexists K, _. split_and!; unfold set_handle; cbn [handles timers restarts now].
        -- by rewrite length_insert.
        -- apply list_lookup_insert_eq. by eapply lookup_lt_Some.
        -- intros j hj [(<- & <- & _) | [Hne Hj]]%list_lookup_insert_Some; [done|].
           intros Hc. by apply (Hlive _ _ Hj).
        -- simpl. rewrite Hcl. done.
      * exists K, hK. split_and!; unfold set_handle; cbn [handles timers restarts now].
        -- by rewrite length_insert.
        -- by rewrite list_lookup_insert_ne.
        -- intros j hj [(<- & <- & _) | [_ Hj]]%list_lookup_insert_Some; simpl.
           ++ rewrite Hcl. by apply (Hlive _ _ Hk).
           ++ by apply (Hlive _ _ Hj).
        -- done.
    + right. intros Hro.
      destruct (inv_handles _ HI _ _ Hk) as [_ Hok].
      assert (ended h = None) as Hend.
      { destruct (ended h) as [[te []]|]; [| | |done];
          destruct Hok as (? & _); congruence. }
      pose proof (lookup_lt_Some _ _ _ Hk) as Hlt.
      apply Hc. eapply (Hro k _ t c); cbn [handles].
      * by apply list_lookup_insert_eq.
      * simpl. by rewrite Hend.
Qed.

(** As long as no connection has ended by the error signal or by the
    completion signal, the loop has one connection at a time: either the
    last handle is the one live handle and the one pending timer is its
    rotation timer, or no handle is live and the one pending timer is the
    restart of the last rotation. *)
Theorem rotation_alone_alternates s :
  reachable s → rotation_only s → alternating s.
Proof.
  intros (t & evs & Hexec) Hro.
  assert (alternating s ∨ ¬ rotation_only s) as [?|?]; [|done|done].
  clear Hro. revert Hexec.
  assert (alternating (boot t)) as Hboot.
  { eexists 0%nat, _. split_and!; [done | done | | by left].
    intros [|j] h; simpl; [done | done]. }
  pose proof (Inv_boot t) as HI. revert HI.
  assert (alternating (boot t) ∨ ¬ rotation_only (boot t)) as Hor by by left.
  clear Hboot. revert Hor. generalize (boot t).
  induction evs as [|ev evs IH]; intros s0 Hor HI; simpl.
  - by intros [= <-].
  - destruct (step ev s0) as [s1|] eqn:Hstep; [|done].
    apply IH; [|by eapply Inv_step].
    destruct Hor as [Halt | Hnot].
    + by eapply alternating_step.
    + right. by eapply not_rotation_only_step.
Qed.

End WithEnv.

End LoopFacts.


(** ** The further properties on the sample data *)
Module MoreExamples.
Import Utils Codec Js Rx Provider Sync Arr Rest Client Loop.
Import CodecMore RestFacts ClientFacts LoopFacts.

Lemma decode_ignores_tail_witness :
  symbolToPairExchange (H := Demo.env) ("KRAKEN_SPOT_BTC_USD" +:+ "_" +:+ "20181228")
  = symbolToPairExchange (H := Demo.env) "KRAKEN_SPOT_BTC_USD".
Proof.
  apply (decode_ignores_tail (H := Demo.env) "KRAKEN_SPOT_BTC_USD" "20181228").
  simpl. lia.
Defined.


Lemma encode_of_decoded_witness :
  pairExchangeIdToSymbol Demo.btc_usd
  = Ok (join Str.sep (take 4 (Str.split Str.sep "KRAKEN_SPOT_BTC_USD_20181228"))).
Proof.
  apply (encode_of_decoded (H := Demo.env) "KRAKEN_SPOT_BTC_USD_20181228"
           Sample.kraken_btc_usd).
  reflexivity.
Defined.

Lemma available_iff_witness :
  Sample.kraken_btc_usd ∈ [Sample.kraken_btc_usd] ↔
  ∃ item, item ∈ Sample.symbols
          ∧ symbolToPairExchange (H := Demo.env) (symbol_id item)
            = Some Sample.kraken_btc_usd
          ∧ supportTicker (H := Demo.env) (pe_from Sample.kraken_btc_usd) = true
          ∧ supportTicker (H := Demo.env) (pe_to Sample.kraken_btc_usd) = true.
Proof.
  apply (available_iff (H := Demo.env) (E := unit) Sample.symbols
           [Sample.kraken_btc_usd]).
  reflexivity.
Defined.

Lemma available_in_order_witness :
  fetchAvailablePairExchanges (H := Demo.env) (E := unit)
    (Symbols (Sample.symbols ++ Sample.more_symbols))
  = inr ([Sample.kraken_btc_usd] ++ [Sample.bitstamp_btc_usd])
  ∧ (length [Sample.kraken_btc_usd] ≤ length Sample.symbols)%nat.
Proof.
  apply (available_in_order (H := Demo.env) (E := unit)); reflexivity.
Defined.

Lemma available_reencode_witness :
  ∃ symbol, pairExchangeIdToSymbol (pe_id Sample.kraken_btc_usd) = Ok symbol
            ∧ symbolToPairExchange (H := Demo.env) symbol
              = Some Sample.kraken_btc_usd.
Proof.
  apply (available_reencode (H := Demo.env) (E := unit) Sample.symbols
           [Sample.kraken_btc_usd]).
  - reflexivity.
  - apply list_elem_of_here.
Defined.

Lemma tick_origin_witness :
  ∃ r symbol pe,
    Message (Parses Demo.trade) = Message (Parses r) ∧ is_object r = true
    ∧ is_string "error" (get r "type") = false
    ∧ get r "symbol_id" = Some (JStr symbol)
    ∧ symbolToPairExchange (H := Demo.env) symbol = Some pe
    ∧ Sample.tick = {| pairExchangeId := pe_id pe; price := get r "price" |}.
Proof.
  apply (tick_origin (H := Demo.env) (Message (Parses Demo.trade)) fresh
           {| closed := false; delivered := [Next Sample.tick]; wire := [] |}).
  - reflexivity.
  - apply list_elem_of_here.
Defined.

Lemma ticks_reencode_witness :
  ∃ symbol pe symbol',
    symbolToPairExchange (H := Demo.env) symbol = Some pe
    ∧ pairExchangeId Sample.tick = pe_id pe
    ∧ pairExchangeIdToSymbol (pairExchangeId Sample.tick) = Ok symbol'
    ∧ symbolToPairExchange (H := Demo.env) symbol' = Some pe.
Proof.
  apply (ticks_reencode (H := Demo.env) Sample.session Sample.session_end).
  - reflexivity.
  - apply list_elem_of_here.
Defined.

Lemma signals_are_orderly_witness : orderly Sample.session_end.
Proof.
  apply (signals_are_orderly (H := Demo.env) Sample.session). reflexivity.
Defined.

Lemma one_hello_per_open_witness :
  sent (wire Sample.session_end)
  = replicate (opens Sample.session) (hello (H := Demo.env)).
Proof.
  apply (one_hello_per_open (H := Demo.env) Sample.session). reflexivity.
Defined.

Lemma closed_has_closed_socket_witness : Close ∈ wire Sample.session_end.
Proof.
  apply (closed_has_closed_socket (H := Demo.env) Sample.session); reflexivity.
Defined.

Lemma rotation_fires_regardless_witness :
  restarts_for 0 Demo.leaked
  = [(0 + delay ByError, (0%nat, ByError));
     (opened_at Sample.leaked_first + autoRebootInterval + autoRebootHangTime,
      (0%nat, ByRotation))].
Proof.
  destruct (rotation_fires_regardless (H := Demo.env) Demo.leaked 0 Sample.leaked_first)
    as (_ & _ & Hboth).
  - exists 0, Demo.leaked_events. vm_compute. reflexivity.
  - vm_compute. reflexivity.
  - apply (Hboth 0 ByError); [reflexivity | discriminate | vm_compute; reflexivity].
Defined.

Lemma restart_opens_once_when_due_witness :
  ∃ j h, handles Demo.leaked !! j = Some h
         ∧ opened_by h = Some (0%nat, ByError) ∧ opened_at h = 60000
         ∧ ∀ j' h', handles Demo.leaked !! j' = Some h' →
                    opened_by h' = Some (0%nat, ByError) → j' = j.
Proof.
  destruct (restart_opens_once_when_due (H := Demo.env) Demo.leaked 60000
              (0%nat, ByError)) as [_ Hdue].
  - exists 0, Demo.leaked_events. vm_compute. reflexivity.
  - vm_compute. apply list_elem_of_here.
  - apply Hdue. vm_compute. reflexivity.
Defined.

Lemma never_dies_witness :
  (∃ k h, handles Demo.errored !! k = Some h ∧ live h = true)
  ∨ ∃ d o, (d, PullLoop o) ∈ timers Demo.errored.
Proof.
  apply (never_dies (H := Demo.env) Demo.errored).
  exists 0, Demo.errored_events. vm_compute. reflexivity.
Defined.

Lemma handles_and_restarts_balance_witness :
  (length (handles Demo.leaked) + length (pending_restarts Demo.leaked))%nat
  = S (length (restarts Demo.leaked)).
Proof.
  apply (handles_and_restarts_balance (H := Demo.env) Demo.leaked).
  exists 0, Demo.leaked_events. vm_compute. reflexivity.
Defined.

Lemma rotation_alone_alternates_witness : alternating Demo.rotated.
Proof.
  apply (rotation_alone_alternates (H := Demo.env) Demo.rotated).
  - exists 0, Demo.rotated_events. vm_compute. reflexivity.
  - intros [|[|k]] h t c Hk He; vm_compute in Hk; simplify_eq;
      vm_compute in He; congruence.
Defined.

End MoreExamples.
